(** * Edit-distance visualizer: the trace engine of [src/App.tsx]

    A shallow embedding of [computeEditDistanceSteps] (the trace builder)
    and [buildBacktrace] (the backtrace reconstructor), together with the
    properties the specification states about them. *)

From Stdlib Require Import Ascii.
From stdpp Require Import base numbers list strings pretty gmap.

Set Default Proof Using "Type".

(** ** Data model *)

(** A JavaScript string is a sequence of UTF-16 code units; [a.length]
    counts them and [a[k]] is the one-unit string at index [k], or
    [undefined] past the end. *)
Abbreviation jsstring := (list N) (only parsing).

(** [a[k]]: [None] stands for [undefined]. *)
Definition char_at (a : jsstring) (k : nat) : option jsstring :=
  (λ c, [c]) <$> a !! k.

(** The boundary marker, the one-unit string U+2205. *)
Definition empty_mark : jsstring := [8709%N].

(** [type Op]. *)
Inductive Op := OpInit | OpMatch | OpReplace | OpInsert | OpDelete.

Global Instance Op_eq_dec : EqDecision Op.
Proof. solve_decision. Defined.

(** One entry of [candidates], and the type of [chosen]. *)
Record Candidate := mkCandidate {
  c_op : Op;
  c_from : option (nat * nat);
  c_value : nat
}.

(** [type CellExplain]. *)
Record CellExplain := mkCell {
  s_i : nat;
  s_j : nat;
  aChar : option jsstring;
  bChar : option jsstring;
  cost : nat;
  candidates : list Candidate;
  chosen : Candidate
}.

(** An entry of the parent table, when it is not [null]. *)
Record Link := mkLink {
  l_i : nat;
  l_j : nat;
  l_op : Op
}.

(** The object returned by [computeEditDistanceSteps]; it is also the
    state the three loops of the function update. *)
Record Trace := mkTrace {
  dp : list (list nat);
  steps : list CellExplain;
  parent : list (list (option Link))
}.

(** ** Array accesses and their failures

    The three ways an indexed access can leave the well-defined part of
    the program: indexing a row that does not exist throws a [TypeError];
    reading past the end of a row yields [undefined] where a number is
    expected; writing past the end of a row silently grows the array. *)
Inductive error := TypeError | UndefinedRead | ArrayGrows.

Global Instance error_eq_dec : EqDecision error.
Proof. solve_decision. Defined.

Abbreviation M := (sum error) (only parsing).

Global Instance M_ret : MRet (sum error) := λ A x, inr x.
Global Instance M_bind : MBind (sum error) := λ A B f m,
  match m with
  | inl e => inl e
  | inr x => f x
  end.

(** [t[i]] used as an object. *)
Definition row {A} (t : list (list A)) (i : nat) : M (list A) :=
  match t !! i with
  | Some r => inr r
  | None => inl TypeError
  end.

(** [t[i][j]] read as a value. *)
Definition get2 {A} (t : list (list A)) (i j : nat) : M A :=
  r ← row t i;
  match r !! j with
  | Some v => inr v
  | None => inl UndefinedRead
  end.

(** [t[i][j] = v]. *)
Definition set2 {A} (t : list (list A)) (i j : nat) (v : A) : M (list (list A)) :=
  r ← row t i;
  if decide (j < length r) then inr (<[i := <[j := v]> r]> t)
  else inl ArrayGrows.

(** [for (let k = lo; k < lo + count; k++) body]. *)
Fixpoint for_loop {St} (lo count : nat) (body : nat → St → M St) (st : St) : M St :=
  match count with
  | 0 => inr st
  | S c => st' ← body lo st; for_loop (S lo) c body st'
  end.

(** ** The trace builder *)

(** [Math.min(del, ins, rep)]. *)
Definition min3 (x y z : nat) : nat := Nat.min (Nat.min x y) z.

(** Body of the first loop (column 0). *)
Definition init_col_step (a : jsstring) (i : nat) (st : Trace) : M Trace :=
  dp1 ← set2 (dp st) i 0 i;
  parent1 ← set2 (parent st) i 0
    (if decide (i = 0) then None else Some (mkLink (i - 1) 0 OpDelete));
  v ← get2 dp1 i 0;
  let step :=
    if decide (0 < i) then
      mkCell i 0 (char_at a (i - 1)) (Some empty_mark) v
        [mkCandidate OpDelete (Some (i - 1, 0)) v]
        (mkCandidate OpDelete (Some (i - 1, 0)) v)
    else
      mkCell i 0 (Some empty_mark) (Some empty_mark) v
        [mkCandidate OpInit None 0]
        (mkCandidate OpInit None 0) in
  inr (mkTrace dp1 (steps st ++ [step]) parent1).

(** Body of the second loop (row 0). *)
Definition init_row_step (b : jsstring) (j : nat) (st : Trace) : M Trace :=
  dp1 ← set2 (dp st) 0 j j;
  parent1 ← set2 (parent st) 0 j (Some (mkLink 0 (j - 1) OpInsert));
  v ← get2 dp1 0 j;
  inr (mkTrace dp1
         (steps st ++
            [mkCell 0 j (Some empty_mark) (char_at b (j - 1)) v
               [mkCandidate OpInsert (Some (0, j - 1)) v]
               (mkCandidate OpInsert (Some (0, j - 1)) v)])
         parent1).

(** The operation label of the diagonal candidate. *)
Definition diag_op (a b : jsstring) (i j : nat) : Op :=
  if decide (char_at a (i - 1) = char_at b (j - 1)) then OpMatch else OpReplace.

(** The tie-break expression
    [diag.value === minVal ? diag : delC.value === minVal ? delC : insC]. *)
Definition choose (minVal : nat) (diag delC insC : Candidate) : Candidate :=
  if decide (c_value diag = minVal) then diag
  else if decide (c_value delC = minVal) then delC
  else insC.

(** Body of the inner fill loop. *)
Definition fill_cell (a b : jsstring) (i j : nat) (st : Trace) : M Trace :=
  up ← get2 (dp st) (i - 1) j;
  let del := up + 1 in
  left ← get2 (dp st) i (j - 1);
  let ins := left + 1 in
  dg ← get2 (dp st) (i - 1) (j - 1);
  let rep := dg + (if decide (char_at a (i - 1) = char_at b (j - 1)) then 0 else 1) in
  let delC := mkCandidate OpDelete (Some (i - 1, j)) del in
  let insC := mkCandidate OpInsert (Some (i, j - 1)) ins in
  let diag := mkCandidate (diag_op a b i j) (Some (i - 1, j - 1)) rep in
  let cands := [delC; insC; diag] in
  let minVal := min3 del ins rep in
  let ch := choose minVal diag delC insC in
  dp1 ← set2 (dp st) i j (c_value ch);
  parent1 ← set2 (parent st) i j
    (match c_from ch with
     | Some (fi, fj) => Some (mkLink fi fj (c_op ch))
     | None => None
     end);
  v ← get2 dp1 i j;
  inr (mkTrace dp1
         (steps st ++ [mkCell i j (char_at a (i - 1)) (char_at b (j - 1)) v cands ch])
         parent1).

Definition computeEditDistanceSteps (a b : jsstring) : M Trace :=
  let m := length a in
  let n := length b in
  let st0 := mkTrace (replicate (m + 1) (replicate (n + 1) 0)) []
                     (replicate (m + 1) (replicate (n + 1) None)) in
  st1 ← for_loop 0 (m + 1) (init_col_step a) st0;
  st2 ← for_loop 1 n (init_row_step b) st1;
  for_loop 1 m (λ i, for_loop 1 n (fill_cell a b i)) st2.

(** ** The backtrace reconstructor *)

(** The key [`${i},${j}`] under which a cell is stored in the path set. *)
Definition key (i j : Z) : string := pretty i +:+ "," +:+ pretty j.

(** [parent[i]?.[j]]: a missing row, a missing column and a [null] entry
    all stop the walk, so they are one [None] here. *)
Definition parent_at (parent : list (list (option Link))) (i j : Z) : option Link :=
  if decide (0 ≤ i)%Z then
    match parent !! Z.to_nat i with
    | Some r => if decide (0 ≤ j)%Z then mjoin (r !! Z.to_nat j) else None
    | None => None
    end
  else None.

(** The [while (true)] loop; [fuel] bounds the number of times its body
    is entered, and [None] says the bound was too small. *)
Fixpoint backtrace_loop (fuel : nat) (parent : list (list (option Link)))
    (path : gset string) (i j : Z) : option (gset string) :=
  match fuel with
  | 0 => None
  | S f =>
      match parent_at parent i j with
      | None => Some path
      | Some p =>
          let i' := Z.of_nat (l_i p) in
          let j' := Z.of_nat (l_j p) in
          backtrace_loop f parent (path ∪ {[key i' j']}) i' j'
      end
  end.

Definition buildBacktrace (fuel : nat) (parent : list (list (option Link)))
    (m n : Z) : option (gset string) :=
  backtrace_loop fuel parent {[key m n]} m n.

(** The cells the walk visits, in order (the start cell first). *)
Fixpoint parent_chain (fuel : nat) (parent : list (list (option Link)))
    (i j : Z) : list (Z * Z) :=
  (i, j) ::
  match fuel with
  | 0 => []
  | S f =>
      match parent_at parent i j with
      | None => []
      | Some p => parent_chain f parent (Z.of_nat (l_i p)) (Z.of_nat (l_j p))
      end
  end.

(** The coordinates [(i, j)] name an entry of the table. *)
Definition in_table (parent : list (list (option Link))) (i j : Z) : Prop :=
  (0 ≤ i)%Z ∧ (0 ≤ j)%Z ∧
  ∃ r, parent !! Z.to_nat i = Some r ∧ Z.to_nat j < length r.

(** Two consecutive cells of a walk: the second is the first moved by
    (-1,0), (0,-1) or (-1,-1). *)
Definition moves_back (c c' : Z * Z) : Prop :=
  (c'.1 = c.1 - 1 ∧ c'.2 = c.2)%Z ∨
  (c'.1 = c.1 ∧ c'.2 = c.2 - 1)%Z ∨
  (c'.1 = c.1 - 1 ∧ c'.2 = c.2 - 1)%Z.

(** JavaScript strings written with ASCII literals. *)
Definition js (s : string) : jsstring :=
  (λ c, N.of_nat (Ascii.nat_of_ascii c)) <$> String.list_ascii_of_string s.

(** ** The reference edit distance *)

(** Cost of aligning one code unit with another. *)
Definition subst_cost (x y : N) : nat := if decide (x = y) then 0 else 1.

(** Levenshtein distance by the textbook recursion on the two strings,
    with no table: the independent reference the builder is compared to. *)
Fixpoint lev (a b : jsstring) : nat :=
  match a with
  | [] => length b
  | x :: a' =>
      (fix lev_row (b : jsstring) : nat :=
         match b with
         | [] => length a
         | y :: b' =>
             min3 (lev a' b + 1) (lev_row b' + 1) (lev a' b' + subst_cost x y)
         end) b
  end.

(** Edit scripts with their cost: [edits a b n] says that [a] can be
    turned into [b] with [n] single-unit insertions, deletions and
    substitutions, kept units being free. *)
Inductive edits : jsstring → jsstring → nat → Prop :=
  | edits_done : edits [] [] 0
  | edits_delete x a b n : edits a b n → edits (x :: a) b (S n)
  | edits_insert y a b n : edits a b n → edits a (y :: b) (S n)
  | edits_keep x a b n : edits a b n → edits (x :: a) (x :: b) n
  | edits_subst x y a b n : edits a b n → edits (x :: a) (y :: b) (S n).

(** ** Closed forms of what the builder writes *)

(** The distance between the prefixes of length [i] and [j]. *)
Definition T (a b : jsstring) (i j : nat) : nat := lev (take i a) (take j b).

Section closed_forms.
Variables a b : jsstring.

Definition delete_cand (i j : nat) : Candidate :=
  mkCandidate OpDelete (Some (i - 1, j)) (T a b (i - 1) j + 1).
Definition insert_cand (i j : nat) : Candidate :=
  mkCandidate OpInsert (Some (i, j - 1)) (T a b i (j - 1) + 1).
Definition diag_cand (i j : nat) : Candidate :=
  mkCandidate (diag_op a b i j) (Some (i - 1, j - 1))
    (T a b (i - 1) (j - 1) +
     (if decide (char_at a (i - 1) = char_at b (j - 1)) then 0 else 1)).

Definition interior_chosen (i j : nat) : Candidate :=
  choose (min3 (c_value (delete_cand i j)) (c_value (insert_cand i j))
               (c_value (diag_cand i j)))
         (diag_cand i j) (delete_cand i j) (insert_cand i j).

Definition cell_link (i j : nat) : option Link :=
  match i, j with
  | 0, 0 => None
  | S i', 0 => Some (mkLink i' 0 OpDelete)
  | 0, S j' => Some (mkLink 0 j' OpInsert)
  | _, _ =>
      match c_from (interior_chosen i j) with
      | Some (fi, fj) => Some (mkLink fi fj (c_op (interior_chosen i j)))
      | None => None
      end
  end.

Definition cell_step (c : nat * nat) : CellExplain :=
  match c with
  | (0, 0) =>
      mkCell 0 0 (Some empty_mark) (Some empty_mark) 0
        [mkCandidate OpInit None 0] (mkCandidate OpInit None 0)
  | (S i', 0) =>
      mkCell (S i') 0 (char_at a i') (Some empty_mark) (S i')
        [mkCandidate OpDelete (Some (i', 0)) (S i')]
        (mkCandidate OpDelete (Some (i', 0)) (S i'))
  | (0, S j') =>
      mkCell 0 (S j') (Some empty_mark) (char_at b j') (S j')
        [mkCandidate OpInsert (Some (0, j')) (S j')]
        (mkCandidate OpInsert (Some (0, j')) (S j'))
  | (i, j) =>
      mkCell i j (char_at a (i - 1)) (char_at b (j - 1))
        (c_value (interior_chosen i j))
        [delete_cand i j; insert_cand i j; diag_cand i j]
        (interior_chosen i j)
  end.
End closed_forms.

(** The construction order: column 0 from row 0 to row [m], then row 0
    from column 1 to column [n], then the interior, row by row. *)
Definition col_cells (m : nat) : list (nat * nat) := (λ i, (i, 0)) <$> seq 0 (m + 1).
Definition row_cells (n : nat) : list (nat * nat) := (λ j, (0, j)) <$> seq 1 n.
Definition line_cells (n i : nat) : list (nat * nat) := (λ j, (i, j)) <$> seq 1 n.
Definition interior_cells (m n : nat) : list (nat * nat) :=
  seq 1 m ≫= line_cells n.
Definition cell_order (m n : nat) : list (nat * nat) :=
  col_cells m ++ row_cells n ++ interior_cells m n.

(** A table with [rows] rows of [cols] entries each. *)
Definition shaped {A} (rows cols : nat) (t : list (list A)) : Prop :=
  length t = rows ∧ ∀ i r, t !! i = Some r → length r = cols.

(** The loop invariant of the builder: the cells picked out by [F] hold
    their final values, and [cs] lists the cells whose steps were pushed. *)
Record Inv (a b : jsstring) (F : nat → nat → Prop) (cs : list (nat * nat))
    (st : Trace) : Prop := mkInv {
  inv_dp_shape : shaped (length a + 1) (length b + 1) (dp st);
  inv_parent_shape : shaped (length a + 1) (length b + 1) (parent st);
  inv_dp : ∀ i j, F i j → get2 (dp st) i j = inr (T a b i j);
  inv_parent : ∀ i j, F i j → get2 (parent st) i j = inr (cell_link a b i j);
  inv_steps : steps st = cell_step a b <$> cs
}.

(** ** Playback and rendering helpers of [src/App.tsx] *)

(** [clamp]: [Math.max(lo, Math.min(hi, n))]. *)
Definition clamp (n lo hi : Z) : Z := Z.max lo (Z.min hi n).

(** [maxStep = steps.length - 1]. *)
Definition maxStep (steps : list CellExplain) : Z :=
  Z.of_nat (length steps) - 1.

(** The updater [(s) => clamp(s + 1, 0, maxStep)] used by the Step button
    and by the autoplay timer. *)
Definition step_forward (hi s : Z) : Z := clamp (s + 1) 0 hi.

(** [cur = steps[stepIdx]]; [None] stands for [undefined]. *)
Definition current_step (steps : list CellExplain) (stepIdx : Z)
    : option CellExplain :=
  if decide (0 ≤ stepIdx)%Z then steps !! Z.to_nat stepIdx else None.

(** The [revealed] memo: the loop
    [for (let k = 0; k <= stepIdx; k++) s.add(`${steps[k].i},${steps[k].j}`)];
    reading [.i] of a missing [steps[k]] throws. *)
Definition revealed (steps : list CellExplain) (stepIdx : Z) : M (gset string) :=
  for_loop 0 (Z.to_nat (stepIdx + 1))
    (λ k s,
       match steps !! k with
       | Some c => inr (s ∪ {[key (Z.of_nat (s_i c)) (Z.of_nat (s_j c))]})
       | None => inl TypeError
       end) ∅.

(** The [backtrace] memo of the component. *)
Definition backtrace_memo (fuel : nat) (showBacktrace : bool)
    (parent : list (list (option Link))) (a b : jsstring) : option (gset string) :=
  if negb showBacktrace then Some ∅
  else buildBacktrace fuel parent (Z.of_nat (length a)) (Z.of_nat (length b)).

(** The flag [c.op === cur.chosen.op && c.value === cur.chosen.value] that
    highlights a candidate in the inspector. *)
Definition is_chosen (cur : CellExplain) (c : Candidate) : bool :=
  bool_decide (c_op c = c_op (chosen cur)) &&
  bool_decide (c_value c = c_value (chosen cur)).

(** [opLabel]. *)
Definition opLabel (op : Op) : string :=
  match op with
  | OpMatch => "Match (0)"
  | OpReplace => "Replace (1)"
  | OpInsert => "Insert (1)"
  | OpDelete => "Delete (1)"
  | OpInit => "Init"
  end.

(** [opBadgeClass]. *)
Definition opBadgeClass (op : Op) : string :=
  match op with
  | OpMatch => "bg-emerald-100 text-emerald-700 border-emerald-200"
  | OpReplace => "bg-amber-100 text-amber-700 border-amber-200"
  | OpInsert => "bg-sky-100 text-sky-700 border-sky-200"
  | OpDelete => "bg-rose-100 text-rose-700 border-rose-200"
  | OpInit => "bg-slate-100 text-slate-700 border-slate-200"
  end.

(** The header labels of [DPGrid]: [i === 0 ? "∅" : a[i - 1]] for a row,
    and the same on [b] for a column. *)
Definition header_label (a : jsstring) (i : nat) : option jsstring :=
  if decide (i = 0) then Some empty_mark else char_at a (i - 1).


(** The labels of the links the walk follows, in order. *)
Fixpoint chain_ops (fuel : nat) (parent : list (list (option Link)))
    (i j : Z) : list Op :=
  match fuel with
  | 0 => []
  | S f =>
      match parent_at parent i j with
      | None => []
      | Some p => l_op p :: chain_ops f parent (Z.of_nat (l_i p)) (Z.of_nat (l_j p))
      end
  end.

(** The position of the step of cell [(i, j)] in the step list of an
    [(m+1) x (n+1)] table. *)
Definition cell_index (m n i j : nat) : nat :=
  match i, j with
  | _, 0 => i
  | 0, S _ => m + j
  | S i', S j' => (m + 1) + n + i' * n + j'
  end.

(** A string without a comma. *)
Fixpoint comma_free (s : string) : Prop :=
  match s with
  | EmptyString => True
  | String c s' => c ≠ ","%char ∧ comma_free s'
  end.

(** ** The reference distance is the cost of a cheapest edit script *)

Lemma lev_nil_r a : lev a [] = length a.
Proof. by destruct a. Qed.

Lemma lev_cons_cons x y a b :
  lev (x :: a) (y :: b) =
  min3 (lev a (y :: b) + 1) (lev (x :: a) b + 1) (lev a b + subst_cost x y).
Proof. done. Qed.

Lemma min3_cases x y z :
  (min3 x y z = x ∧ x ≤ y ∧ x ≤ z) ∨
  (min3 x y z = y ∧ y ≤ x ∧ y ≤ z) ∨
  (min3 x y z = z ∧ z ≤ x ∧ z ≤ y).
Proof. unfold min3. lia. Qed.

Lemma subst_cost_le x y : subst_cost x y ≤ 1.
Proof. unfold subst_cost. case_decide; lia. Qed.

Lemma edits_lev a b : edits a b (lev a b).
Proof.
  revert b. induction a as [|x a IHa]; intros b.
  - induction b as [|y b IHb]; simpl in *; by constructor.
  - induction b as [|y b IHb].
    + rewrite lev_nil_r. specialize (IHa []). rewrite lev_nil_r in IHa.
      by constructor.
    + rewrite lev_cons_cons.
      destruct (min3_cases (lev a (y :: b) + 1) (lev (x :: a) b + 1)
                  (lev a b + subst_cost x y)) as [[-> _]|[[-> _]|[-> _]]].
      * rewrite Nat.add_1_r. apply edits_delete, IHa.
      * rewrite Nat.add_1_r. by apply edits_insert.
      * unfold subst_cost. case_decide as Hxy.
        -- subst y. rewrite Nat.add_0_r. apply edits_keep, IHa.
        -- rewrite Nat.add_1_r. apply edits_subst, IHa.
Qed.

Lemma lev_delete_le x a b : lev (x :: a) b ≤ S (lev a b).
Proof.
  destruct b as [|y b].
  - rewrite !lev_nil_r. simpl. lia.
  - rewrite lev_cons_cons. unfold min3. lia.
Qed.

Lemma lev_insert_le y a b : lev a (y :: b) ≤ S (lev a b).
Proof.
  destruct a as [|x a].
  - simpl. lia.
  - rewrite lev_cons_cons. unfold min3. lia.
Qed.

Lemma lev_le_edits a b n : edits a b n → lev a b ≤ n.
Proof.
  induction 1 as [|x a b n _ IH|y a b n _ IH|x a b n _ IH|x y a b n _ IH].
  - done.
  - pose proof (lev_delete_le x a b). lia.
  - pose proof (lev_insert_le y a b). lia.
  - rewrite lev_cons_cons. unfold min3, subst_cost.
    rewrite decide_True by done. lia.
  - rewrite lev_cons_cons. pose proof (subst_cost_le x y). unfold min3. lia.
Qed.

(** Scripts can be extended at the far end as well as at the near end. *)
Lemma edits_delete_last x a b n : edits a b n → edits (a ++ [x]) b (S n).
Proof.
  induction 1; simpl;
    [apply edits_delete, edits_done | by apply edits_delete
    | by apply edits_insert | by apply edits_keep | by apply edits_subst].
Qed.

Lemma edits_insert_last y a b n : edits a b n → edits a (b ++ [y]) (S n).
Proof.
  induction 1; simpl;
    [apply edits_insert, edits_done | by apply edits_delete
    | by apply edits_insert | by apply edits_keep | by apply edits_subst].
Qed.

Lemma edits_keep_last x a b n : edits a b n → edits (a ++ [x]) (b ++ [x]) n.
Proof.
  induction 1; simpl;
    [apply edits_keep, edits_done | by apply edits_delete
    | by apply edits_insert | by apply edits_keep | by apply edits_subst].
Qed.

Lemma edits_subst_last x y a b n :
  edits a b n → edits (a ++ [x]) (b ++ [y]) (S n).
Proof.
  induction 1; simpl;
    [apply edits_subst, edits_done | by apply edits_delete
    | by apply edits_insert | by apply edits_keep | by apply edits_subst].
Qed.

Lemma edits_reverse a b n : edits a b n → edits (reverse a) (reverse b) n.
Proof.
  induction 1; rewrite ?reverse_nil, ?reverse_cons.
  - constructor.
  - by apply edits_delete_last.
  - by apply edits_insert_last.
  - by apply edits_keep_last.
  - by apply edits_subst_last.
Qed.

Lemma lev_reverse a b : lev (reverse a) (reverse b) = lev a b.
Proof.
  apply Nat.le_antisymm.
  - apply lev_le_edits, edits_reverse, edits_lev.
  - rewrite <-(reverse_involutive a), <-(reverse_involutive b) at 1.
    apply lev_le_edits, edits_reverse, edits_lev.
Qed.

(** The recursion of [lev] read at the far end: the recurrence the table
    is filled by. *)
Lemma lev_snoc_snoc x y a b :
  lev (a ++ [x]) (b ++ [y]) =
  min3 (lev a (b ++ [y]) + 1) (lev (a ++ [x]) b + 1) (lev a b + subst_cost x y).
Proof.
  rewrite <-(lev_reverse (a ++ [x]) (b ++ [y])), !reverse_snoc, lev_cons_cons.
  rewrite <-(reverse_snoc b y), <-(reverse_snoc a x), !lev_reverse.
  done.
Qed.

(** ** The recurrence on prefixes *)

Lemma T_row0 a b j : j ≤ length b → T a b 0 j = j.
Proof. intros Hj. unfold T. rewrite take_0. simpl. by rewrite length_take_le. Qed.

Lemma T_col0 a b i : i ≤ length a → T a b i 0 = i.
Proof.
  intros Hi. unfold T. rewrite (take_0 b), lev_nil_r. by rewrite length_take_le.
Qed.

Lemma T_full a b : T a b (length a) (length b) = lev a b.
Proof. unfold T. by rewrite !take_ge. Qed.

Lemma char_at_eq_cost a b i j x y :
  a !! i = Some x → b !! j = Some y →
  (if decide (char_at a i = char_at b j) then 0 else 1) = subst_cost x y.
Proof.
  intros Ha Hb. unfold char_at, subst_cost. rewrite Ha, Hb. simpl.
  repeat case_decide; naive_solver.
Qed.

Lemma T_interior a b i j :
  i < length a → j < length b →
  T a b (S i) (S j) =
  min3 (T a b i (S j) + 1) (T a b (S i) j + 1)
       (T a b i j + (if decide (char_at a i = char_at b j) then 0 else 1)).
Proof.
  intros Hi Hj.
  destruct (lookup_lt_is_Some_2 a i Hi) as [x Hx].
  destruct (lookup_lt_is_Some_2 b j Hj) as [y Hy].
  rewrite (char_at_eq_cost a b i j x y Hx Hy). unfold T.
  rewrite (take_S_r a i x Hx), (take_S_r b j y Hy).
  apply lev_snoc_snoc.
Qed.

Lemma choose_value d i r op1 f1 op2 f2 op3 f3 :
  c_value (choose (min3 d i r) (mkCandidate op3 f3 r) (mkCandidate op1 f1 d)
             (mkCandidate op2 f2 i)) = min3 d i r.
Proof.
  unfold choose. simpl. repeat case_decide; simpl; try done.
  unfold min3 in *. lia.
Qed.

Lemma interior_chosen_value a b i j :
  1 ≤ i ≤ length a → 1 ≤ j ≤ length b →
  c_value (interior_chosen a b i j) = T a b i j.
Proof.
  intros Hi Hj. unfold interior_chosen, delete_cand, insert_cand, diag_cand.
  simpl. rewrite choose_value.
  destruct i as [|i]; [lia|]. destruct j as [|j]; [lia|].
  rewrite T_interior by lia. simpl. by rewrite !Nat.sub_0_r.
Qed.

(** ** Indexed reads and writes on shaped tables *)

Lemma shaped_replicate {A} rows cols (x : A) :
  shaped rows cols (replicate rows (replicate cols x)).
Proof.
  split; [by rewrite length_replicate|].
  intros i r [-> _]%lookup_replicate. by rewrite length_replicate.
Qed.

Lemma set2_shaped {A} rows cols (t : list (list A)) i j v :
  shaped rows cols t → i < rows → j < cols →
  ∃ t', set2 t i j v = inr t' ∧ shaped rows cols t' ∧
        get2 t' i j = inr v ∧
        ∀ i' j', (i', j') ≠ (i, j) → get2 t' i' j' = get2 t i' j'.
Proof.
  intros [Hlen Hrows] Hi Hj.
  destruct (lookup_lt_is_Some_2 t i) as [r Hr]; [lia|].
  pose proof (Hrows i r Hr) as Hlr.
  exists (<[i := <[j := v]> r]> t). repeat split.
  - unfold set2, row. rewrite Hr. simpl. rewrite decide_True by lia. done.
  - by rewrite length_insert.
  - intros i' r' Hr'. destruct (decide (i = i')) as [<-|Hne].
    + rewrite list_lookup_insert_eq in Hr' by lia.
      injection Hr' as <-. by rewrite length_insert.
    + rewrite list_lookup_insert_ne in Hr' by done. eauto.
  - unfold get2, row. rewrite list_lookup_insert_eq by lia. simpl.
    rewrite list_lookup_insert_eq by lia. done.
  - intros i' j' Hne. unfold get2, row.
    destruct (decide (i = i')) as [<-|Hi'].
    + rewrite list_lookup_insert_eq by lia. rewrite Hr. simpl.
      rewrite list_lookup_insert_ne by congruence. done.
    + rewrite list_lookup_insert_ne by done. done.
Qed.

Lemma get2_lookup {A} (t : list (list A)) i j v :
  get2 t i j = inr v ↔ ∃ r, t !! i = Some r ∧ r !! j = Some v.
Proof.
  unfold get2, row. split.
  - destruct (t !! i) as [r|]; simpl; [|done].
    destruct (r !! j) eqn:E; [|done]. intros [= ->]. eauto.
  - intros (r & -> & Hv). simpl. by rewrite Hv.
Qed.

(** ** The loop rule *)

Lemma for_loop_inv {St} (P : nat → St → Prop) lo count
    (body : nat → St → M St) st :
  P 0 st →
  (∀ c s, c < count → P c s → ∃ s', body (lo + c) s = inr s' ∧ P (S c) s') →
  ∃ s', for_loop lo count body st = inr s' ∧ P count s'.
Proof.
  revert P lo st. induction count as [|count IH]; intros P lo st H0 Hstep.
  - exists st. done.
  - destruct (Hstep 0 st) as (s1 & Hb & H1); [lia|done|].
    rewrite Nat.add_0_r in Hb.
    destruct (IH (λ c, P (S c)) (S lo) s1 H1) as (s' & Hl & Hs').
    { intros c s Hc Hp. destruct (Hstep (S c) s) as (s2 & Hb2 & H2); [lia|done|].
      exists s2. split; [|done]. by replace (S lo + c) with (lo + S c) by lia. }
    exists s'. split; [|done]. simpl. rewrite Hb. done.
Qed.

(** ** The invariant through one cell *)

Section cells.
Variables a b : jsstring.

Lemma Inv_weaken F F' cs st :
  Inv a b F cs st → (∀ i j, F' i j → F i j) → Inv a b F' cs st.
Proof. intros [] HF. split; auto. Qed.

Lemma Inv_start :
  Inv a b (λ _ _, False) []
    (mkTrace (replicate (length a + 1) (replicate (length b + 1) 0)) []
             (replicate (length a + 1) (replicate (length b + 1) None))).
Proof. split; simpl; try apply shaped_replicate; done. Qed.

(** Writing the final value and link of a cell, and pushing its step,
    adds the cell to the invariant. *)
Lemma Inv_write F cs st i j v l :
  Inv a b F cs st → i ≤ length a → j ≤ length b →
  v = T a b i j → l = cell_link a b i j →
  ∃ dp1 parent1,
    set2 (dp st) i j v = inr dp1 ∧
    set2 (parent st) i j l = inr parent1 ∧
    get2 dp1 i j = inr v ∧
    ∀ s, s = cell_step a b (i, j) →
      Inv a b (λ i' j', F i' j' ∨ (i' = i ∧ j' = j)) (cs ++ [(i, j)])
        (mkTrace dp1 (steps st ++ [s]) parent1).
Proof.
  intros [Hds Hps Hd Hp Hs] Hi Hj -> ->.
  destruct (set2_shaped _ _ (dp st) i j (T a b i j) Hds)
    as (dp1 & Hset & Hds1 & Hget & Hother); [lia..|].
  destruct (set2_shaped _ _ (parent st) i j (cell_link a b i j) Hps)
    as (parent1 & Hsetp & Hps1 & Hgetp & Hotherp); [lia..|].
  exists dp1, parent1. do 3 (split; [done|]).
  intros s ->. split; simpl; [done|done|..].
  - intros i' j' [HF|[-> ->]]; [|done].
    destruct (decide ((i', j') = (i, j))) as [[= -> ->]|Hne]; [done|].
    rewrite Hother by done. auto.
  - intros i' j' [HF|[-> ->]]; [|done].
    destruct (decide ((i', j') = (i, j))) as [[= -> ->]|Hne]; [done|].
    rewrite Hotherp by done. auto.
  - rewrite fmap_app, Hs. done.
Qed.

Lemma init_col_step_ok F cs st i :
  Inv a b F cs st → i ≤ length a →
  ∃ st', init_col_step a i st = inr st' ∧
         Inv a b (λ i' j', F i' j' ∨ (i' = i ∧ j' = 0)) (cs ++ [(i, 0)]) st'.
Proof.
  intros HI Hi.
  destruct (Inv_write F cs st i 0 i
              (if decide (i = 0) then None else Some (mkLink (i - 1) 0 OpDelete))
              HI Hi) as (dp1 & parent1 & Hd & Hp & Hg & Hinv).
  { lia. }
  { by rewrite T_col0. }
  { destruct i; simpl; [done|]. by rewrite Nat.sub_0_r. }
  unfold init_col_step. rewrite Hd. simpl. rewrite Hp. simpl.
  rewrite Hg. simpl. eexists. split; [done|]. apply Hinv.
  destruct i; simpl; [done|]. by rewrite Nat.sub_0_r.
Qed.

Lemma init_row_step_ok F cs st j :
  Inv a b F cs st → 1 ≤ j ≤ length b →
  ∃ st', init_row_step b j st = inr st' ∧
         Inv a b (λ i' j', F i' j' ∨ (i' = 0 ∧ j' = j)) (cs ++ [(0, j)]) st'.
Proof.
  intros HI Hj.
  destruct (Inv_write F cs st 0 j j (Some (mkLink 0 (j - 1) OpInsert)) HI)
    as (dp1 & parent1 & Hd & Hp & Hg & Hinv).
  { lia. }
  { lia. }
  { by rewrite T_row0 by lia. }
  { destruct j; simpl; [lia|]. by rewrite Nat.sub_0_r. }
  unfold init_row_step. rewrite Hd. simpl. rewrite Hp. simpl.
  rewrite Hg. simpl. eexists. split; [done|]. apply Hinv.
  destruct j; simpl; [lia|]. by rewrite Nat.sub_0_r.
Qed.

Lemma fill_cell_ok F cs st i j :
  Inv a b F cs st → 1 ≤ i ≤ length a → 1 ≤ j ≤ length b →
  F (i - 1) j → F i (j - 1) → F (i - 1) (j - 1) →
  ∃ st', fill_cell a b i j st = inr st' ∧
         Inv a b (λ i' j', F i' j' ∨ (i' = i ∧ j' = j)) (cs ++ [(i, j)]) st'.
Proof.
  intros HI Hi Hj Hup Hleft Hdiag.
  destruct (Inv_write F cs st i j (c_value (interior_chosen a b i j))
              (cell_link a b i j) HI)
    as (dp1 & parent1 & Hd & Hp & Hg & Hinv).
  { lia. }
  { lia. }
  { by apply interior_chosen_value. }
  { done. }
  unfold fill_cell.
  rewrite (inv_dp _ _ _ _ _ HI _ _ Hup). simpl.
  rewrite (inv_dp _ _ _ _ _ HI _ _ Hleft). simpl.
  rewrite (inv_dp _ _ _ _ _ HI _ _ Hdiag). simpl.
  fold (delete_cand a b i j) (insert_cand a b i j) (diag_cand a b i j).
  change (choose _ (diag_cand a b i j) (delete_cand a b i j) (insert_cand a b i j))
    with (interior_chosen a b i j).
  rewrite Hd. simpl.
  replace (match c_from (interior_chosen a b i j) with
           | Some (fi, fj) => Some (mkLink fi fj (c_op (interior_chosen a b i j)))
           | None => None
           end) with (cell_link a b i j).
  2:{ destruct i; [lia|]. destruct j; [lia|]. done. }
  rewrite Hp. simpl. rewrite Hg. simpl. eexists. split; [done|]. apply Hinv.
  destruct i; [lia|]. destruct j; [lia|]. done.
Qed.
End cells.

(** ** The three loops *)

Section loops.
Variables a b : jsstring.
Let m := length a.
Let n := length b.

Lemma init_col_loop_ok st :
  Inv a b (λ _ _, False) [] st →
  ∃ st', for_loop 0 (m + 1) (init_col_step a) st = inr st' ∧
         Inv a b (λ i j, j = 0 ∧ i ≤ m) (col_cells m) st'.
Proof.
  intros H0.
  destruct (for_loop_inv
    (λ c s, Inv a b (λ i j, j = 0 ∧ i < c) ((λ i, (i, 0)) <$> seq 0 c) s)
    0 (m + 1) (init_col_step a) st) as (st' & Hrun & HI).
  - eapply Inv_weaken; [exact H0|]. simpl. lia.
  - intros c s Hc HI. cbv beta in *. change (0 + c) with c.
    destruct (init_col_step_ok a b _ _ s c HI) as (s' & Hs' & HI'); [unfold m in *; lia|].
    exists s'. split; [done|]. rewrite seq_S, fmap_app. simpl.
    eapply Inv_weaken; [exact HI'|]. simpl. lia.
  - exists st'. split; [done|]. eapply Inv_weaken; [exact HI|]. simpl. lia.
Qed.

Lemma init_row_loop_ok st :
  Inv a b (λ i j, j = 0 ∧ i ≤ m) (col_cells m) st →
  ∃ st', for_loop 1 n (init_row_step b) st = inr st' ∧
         Inv a b (λ i j, i ≤ m ∧ j ≤ n ∧ (i = 0 ∨ j = 0))
           (col_cells m ++ row_cells n) st'.
Proof.
  intros H0.
  destruct (for_loop_inv
    (λ c s, Inv a b (λ i j, (j = 0 ∧ i ≤ m) ∨ (i = 0 ∧ j ≤ c))
              (col_cells m ++ ((λ j, (0, j)) <$> seq 1 c)) s)
    1 n (init_row_step b) st) as (st' & Hrun & HI).
  - simpl. rewrite app_nil_r. eapply Inv_weaken; [exact H0|]. simpl. lia.
  - intros c s Hc HI. cbv beta in *.
    destruct (init_row_step_ok a b _ _ s (1 + c) HI) as (s' & Hs' & HI');
      [unfold n in *; lia|].
    exists s'. split; [done|]. rewrite seq_S, fmap_app, app_assoc. simpl.
    eapply Inv_weaken; [exact HI'|]. simpl. lia.
  - exists st'. split; [done|]. eapply Inv_weaken; [exact HI|].
    simpl. lia.
Qed.

Lemma fill_row_ok c st :
  c < m →
  Inv a b (λ i j, i ≤ m ∧ j ≤ n ∧ (i = 0 ∨ j = 0 ∨ i ≤ c))
    (col_cells m ++ row_cells n ++ (seq 1 c ≫= line_cells n)) st →
  ∃ st', for_loop 1 n (fill_cell a b (1 + c)) st = inr st' ∧
         Inv a b (λ i j, i ≤ m ∧ j ≤ n ∧ (i = 0 ∨ j = 0 ∨ i ≤ S c))
           (col_cells m ++ row_cells n ++ (seq 1 (S c) ≫= line_cells n)) st'.
Proof.
  intros Hc H0.
  destruct (for_loop_inv
    (λ d s, Inv a b (λ i j, i ≤ m ∧ j ≤ n ∧
                            (i = 0 ∨ j = 0 ∨ i ≤ c ∨ (i = S c ∧ j ≤ d)))
              ((col_cells m ++ row_cells n ++ (seq 1 c ≫= line_cells n)) ++
               ((λ j, (S c, j)) <$> seq 1 d)) s)
    1 n (fill_cell a b (1 + c)) st) as (st' & Hrun & HI).
  - simpl. rewrite app_nil_r. eapply Inv_weaken; [exact H0|]. simpl. lia.
  - intros d s Hd HI. cbv beta in *.
    destruct (fill_cell_ok a b _ _ s (1 + c) (1 + d) HI) as (s' & Hs' & HI');
      [unfold m, n in *; simpl; lia..|].
    exists s'. split; [done|]. rewrite seq_S, fmap_app, app_assoc. simpl.
    eapply Inv_weaken; [exact HI'|]. simpl. lia.
  - exists st'. split; [done|].
    rewrite seq_S, bind_app. simpl. rewrite app_nil_r.
    unfold line_cells at 2. rewrite <-!app_assoc in HI.
    eapply Inv_weaken; [exact HI|]. simpl. lia.
Qed.

Lemma fill_loop_ok st :
  Inv a b (λ i j, i ≤ m ∧ j ≤ n ∧ (i = 0 ∨ j = 0))
    (col_cells m ++ row_cells n) st →
  ∃ st', for_loop 1 m (λ i, for_loop 1 n (fill_cell a b i)) st = inr st' ∧
         Inv a b (λ i j, i ≤ m ∧ j ≤ n) (cell_order m n) st'.
Proof.
  intros H0.
  destruct (for_loop_inv
    (λ c s, Inv a b (λ i j, i ≤ m ∧ j ≤ n ∧ (i = 0 ∨ j = 0 ∨ i ≤ c))
              (col_cells m ++ row_cells n ++ (seq 1 c ≫= line_cells n)) s)
    1 m (λ i, for_loop 1 n (fill_cell a b i)) st) as (st' & Hrun & HI).
  - simpl. rewrite app_nil_r. eapply Inv_weaken; [exact H0|]. simpl. lia.
  - intros c s Hc HI. by apply fill_row_ok.
  - exists st'. split; [done|]. eapply Inv_weaken; [exact HI|]. simpl. lia.
Qed.

(** The builder returns, and what it returns is described cell by cell
    by the closed forms. *)
Lemma computeEditDistanceSteps_inv :
  ∃ r, computeEditDistanceSteps a b = inr r ∧
       Inv a b (λ i j, i ≤ m ∧ j ≤ n) (cell_order m n) r.
Proof.
  destruct (init_col_loop_ok _ (Inv_start a b)) as (st1 & H1 & HI1).
  destruct (init_row_loop_ok _ HI1) as (st2 & H2 & HI2).
  destruct (fill_loop_ok _ HI2) as (st3 & H3 & HI3).
  exists st3. split; [|done].
  unfold computeEditDistanceSteps. unfold m, n in *. cbv zeta.
  rewrite H1. simpl. rewrite H2. simpl. exact H3.
Qed.
End loops.

(** ** The visiting order *)

Lemma cell_step_coords a b c : (s_i (cell_step a b c), s_j (cell_step a b c)) = c.
Proof. by destruct c as [[|i] [|j]]. Qed.

Lemma cell_step_i a b i j : s_i (cell_step a b (i, j)) = i.
Proof. by destruct i, j. Qed.

Lemma cell_step_j a b i j : s_j (cell_step a b (i, j)) = j.
Proof. by destruct i, j. Qed.

Lemma line_cells_lookup n i j : j < n → line_cells n i !! j = Some (i, S j).
Proof.
  intros Hj. unfold line_cells. by rewrite list_lookup_fmap, lookup_seq_lt.
Qed.

Lemma length_line_cells n i : length (line_cells n i) = n.
Proof. unfold line_cells. by rewrite length_fmap, length_seq. Qed.

Lemma length_lines lo m n : length (seq lo m ≫= line_cells n) = m * n.
Proof.
  revert lo. induction m as [|m IH]; intros lo; simpl; [done|].
  by rewrite length_app, length_line_cells, IH.
Qed.

Lemma lines_lookup lo m n i j :
  i < m → j < n → (seq lo m ≫= line_cells n) !! (i * n + j) = Some (lo + i, S j).
Proof.
  revert lo i. induction m as [|m IH]; intros lo i Hi Hj; [lia|]. simpl.
  destruct i as [|i].
  - rewrite lookup_app_l by (rewrite length_line_cells; lia). simpl.
    rewrite Nat.add_0_r. by apply line_cells_lookup.
  - rewrite lookup_app_r by (rewrite length_line_cells; simpl; lia).
    rewrite length_line_cells.
    replace (S i * n + j - n) with (i * n + j) by (simpl; lia).
    rewrite IH by lia. f_equal. f_equal. lia.
Qed.

Lemma length_cell_order m n : length (cell_order m n) = (m + 1) + n + m * n.
Proof.
  unfold cell_order, col_cells, row_cells, interior_cells.
  rewrite !length_app, !length_fmap, !length_seq, length_lines. lia.
Qed.

Lemma cell_order_interior m n i j :
  1 ≤ i ≤ m → 1 ≤ j ≤ n →
  cell_order m n !! ((m + 1) + n + (i - 1) * n + (j - 1)) = Some (i, j).
Proof.
  intros Hi Hj. unfold cell_order.
  assert (∃ x, x = (i - 1) * n) as [x Hx] by eauto. rewrite <-Hx.
  rewrite lookup_app_r; unfold col_cells; rewrite length_fmap, length_seq; [|lia].
  rewrite lookup_app_r; unfold row_cells; rewrite length_fmap, length_seq; [|lia].
  replace (m + 1 + n + x + (j - 1) - (m + 1) - n) with (x + (j - 1)) by lia.
  subst x. unfold interior_cells. rewrite lines_lookup by lia.
  f_equal. f_equal; lia.
Qed.

Lemma cell_order_bounds m n i j : (i, j) ∈ cell_order m n → i ≤ m ∧ j ≤ n.
Proof.
  unfold cell_order, col_cells, row_cells, interior_cells, line_cells.
  rewrite !elem_of_app, !list_elem_of_fmap, list_elem_of_bind.
  intros [(k & [= -> ->] & Hk%elem_of_seq)
         |[(k & [= -> ->] & Hk%elem_of_seq)
          |(k & (k' & [= -> ->] & Hk'%elem_of_seq)%list_elem_of_fmap
              & Hk%elem_of_seq)]]; lia.
Qed.

Lemma lines_empty lo m : seq lo m ≫= line_cells 0 = [].
Proof. revert lo. induction m as [|m IH]; intros lo; simpl; [done|]. apply IH. Qed.

Lemma last_cell_order m n : last (cell_order m n) = Some (m, n).
Proof.
  unfold cell_order, interior_cells.
  destruct n as [|n].
  - rewrite lines_empty. unfold row_cells. simpl. rewrite app_nil_r.
    unfold col_cells. rewrite Nat.add_1_r, seq_S, fmap_app. simpl.
    by rewrite last_snoc.
  - destruct m as [|m].
    + change (seq 1 0 ≫= line_cells (S n)) with (@nil (nat * nat)).
      rewrite app_nil_r. unfold row_cells.
      rewrite seq_S, fmap_app, app_assoc. simpl.
      by rewrite app_comm_cons, last_snoc.
    + rewrite (seq_S m 1), bind_app, bind_singleton.
      unfold line_cells at 2. rewrite (seq_S n 1), fmap_app, !app_assoc.
      apply last_snoc.
Qed.

(** ** Parent links *)

Lemma parent_at_get2 (parent : list (list (option Link))) (i j : nat) l :
  get2 parent i j = inr l → parent_at parent (Z.of_nat i) (Z.of_nat j) = l.
Proof.
  intros (r & Hr & Hl)%get2_lookup. unfold parent_at.
  rewrite decide_True by lia. rewrite Nat2Z.id, Hr.
  rewrite decide_True by lia. rewrite Nat2Z.id, Hl. done.
Qed.

Lemma choose_cases v diag delC insC :
  choose v diag delC insC = diag ∨ choose v diag delC insC = delC ∨
  choose v diag delC insC = insC.
Proof. unfold choose. repeat case_decide; auto. Qed.

Lemma diag_op_cases a b i j : diag_op a b i j = OpMatch ∨ diag_op a b i j = OpReplace.
Proof. unfold diag_op. case_decide; auto. Qed.

(** A link leads one cell up, one cell left, or one cell up and left, and
    its label says which. *)
Lemma cell_link_cases a b i j p :
  cell_link a b i j = Some p →
  (1 ≤ i ∧ l_i p = i - 1 ∧ l_j p = j ∧ l_op p = OpDelete) ∨
  (1 ≤ j ∧ l_i p = i ∧ l_j p = j - 1 ∧ l_op p = OpInsert) ∨
  (1 ≤ i ∧ 1 ≤ j ∧ l_i p = i - 1 ∧ l_j p = j - 1 ∧
   (l_op p = OpMatch ∨ l_op p = OpReplace)).
Proof.
  destruct i as [|i], j as [|j]; simpl.
  - done.
  - intros [= <-]. simpl. right. left. repeat split; auto; lia.
  - intros [= <-]. simpl. left. repeat split; auto; lia.
  - destruct (choose_cases
      (min3 (c_value (delete_cand a b (S i) (S j)))
            (c_value (insert_cand a b (S i) (S j)))
            (c_value (diag_cand a b (S i) (S j))))
      (diag_cand a b (S i) (S j)) (delete_cand a b (S i) (S j))
      (insert_cand a b (S i) (S j))) as [H|[H|H]];
      unfold interior_chosen; rewrite H; simpl; intros [= <-]; simpl.
    + right. right. pose proof (diag_op_cases a b (S i) (S j)).
      repeat split; auto; lia.
    + left. repeat split; auto; lia.
    + right. left. repeat split; auto; lia.
Qed.

Lemma cell_link_is_Some a b i j :
  0 < i + j → is_Some (cell_link a b i j).
Proof.
  destruct i as [|i], j as [|j]; simpl; [lia|eauto..|].
  intros _.
  destruct (choose_cases
      (min3 (c_value (delete_cand a b (S i) (S j)))
            (c_value (insert_cand a b (S i) (S j)))
            (c_value (diag_cand a b (S i) (S j))))
      (diag_cand a b (S i) (S j)) (delete_cand a b (S i) (S j))
      (insert_cand a b (S i) (S j))) as [H|[H|H]];
    unfold interior_chosen; rewrite H; simpl; eauto.
Qed.

(** ** The walk along the links *)

Lemma parent_chain_head fuel parent i j :
  head (parent_chain fuel parent i j) = Some (i, j).
Proof. by destruct fuel. Qed.

Lemma backtrace_loop_chain fuel parent path i j path' :
  backtrace_loop fuel parent path i j = Some path' →
  path' = path ∪ list_to_set (uncurry key <$> tail (parent_chain fuel parent i j)).
Proof.
  revert path i j. induction fuel as [|fuel IH]; intros path i j; simpl; [done|].
  destruct (parent_at parent i j) as [p|]; simpl.
  - intros ->%IH. destruct fuel; simpl; by rewrite (assoc_L (∪)).
  - intros [= <-]. by rewrite (right_id_L ∅ (∪)).
Qed.

(** More fuel does not change what the loop returns. *)
Lemma backtrace_loop_more_fuel fuel extra parent path i j path' :
  backtrace_loop fuel parent path i j = Some path' →
  backtrace_loop (fuel + extra) parent path i j = Some path'.
Proof.
  revert path i j. induction fuel as [|fuel IH]; intros path i j; simpl; [done|].
  destruct (parent_at parent i j) as [p|]; [apply IH|done].
Qed.

Lemma buildBacktrace_chain fuel parent m n path :
  buildBacktrace fuel parent m n = Some path →
  path = list_to_set (uncurry key <$> parent_chain fuel parent m n).
Proof.
  intros ->%backtrace_loop_chain. by destruct fuel.
Qed.

Section walk.
Variables a b : jsstring.
Variable parent : list (list (option Link)).
Hypothesis parent_links : ∀ i j : nat,
  i ≤ length a → j ≤ length b →
  parent_at parent (Z.of_nat i) (Z.of_nat j) = cell_link a b i j.

Lemma backtrace_loop_returns fuel path (i j : nat) :
  i ≤ length a → j ≤ length b → i + j < fuel →
  is_Some (backtrace_loop fuel parent path (Z.of_nat i) (Z.of_nat j)).
Proof using parent_links.
  revert path i j. induction fuel as [|fuel IH]; intros path i j Hi Hj Hf; [lia|].
  simpl. rewrite parent_links by done.
  destruct (cell_link a b i j) as [p|] eqn:Hp; [|eauto].
  apply cell_link_cases in Hp. apply IH; lia.
Qed.

Lemma parent_chain_moves fuel (i j : nat) k c c' :
  i ≤ length a → j ≤ length b →
  parent_chain fuel parent (Z.of_nat i) (Z.of_nat j) !! k = Some c →
  parent_chain fuel parent (Z.of_nat i) (Z.of_nat j) !! S k = Some c' →
  moves_back c c'.
Proof using parent_links.
  revert i j k. induction fuel as [|fuel IH]; intros i j k Hi Hj; [done|].
  simpl. rewrite parent_links by done.
  destruct (cell_link a b i j) as [p|] eqn:Hp; [|done].
  apply cell_link_cases in Hp. destruct k as [|k]; simpl.
  - intros [= <-]. rewrite <-head_lookup, parent_chain_head. intros [= <-].
    unfold moves_back. simpl. lia.
  - apply IH; lia.
Qed.

Lemma parent_chain_last fuel (i j : nat) :
  i ≤ length a → j ≤ length b → i + j ≤ fuel →
  last (parent_chain fuel parent (Z.of_nat i) (Z.of_nat j)) = Some (0%Z, 0%Z).
Proof using parent_links.
  revert i j. induction fuel as [|fuel IH]; intros i j Hi Hj Hf.
  - assert (i = 0 ∧ j = 0) as [-> ->] by lia. done.
  - simpl. rewrite parent_links by done.
    destruct (decide (i + j = 0)) as [H0|Hpos].
    + assert (i = 0 ∧ j = 0) as [-> ->] by lia. done.
    + destruct (cell_link_is_Some a b i j) as [p Hp]; [lia|]. rewrite Hp.
      apply cell_link_cases in Hp.
      rewrite last_cons, IH by lia. done.
Qed.
End walk.

(** ** The properties stated by the specification *)

(** The reference recursion computes the least cost of an edit script:
    it is the edit distance under unit costs. *)
Theorem lev_is_edit_distance a b :
  edits a b (lev a b) ∧ ∀ n, edits a b n → lev a b ≤ n.
Proof. split; [apply edits_lev|]. intros n. apply lev_le_edits. Qed.

(** C1: for every pair of strings the builder returns a table whose
    entry [table[lenA][lenB]] is the Levenshtein distance of the two
    strings, as computed by the table-free reference recursion [lev]. *)
Theorem trace_builder_distance a b :
  ∃ r, computeEditDistanceSteps a b = inr r ∧
       get2 (dp r) (length a) (length b) = inr (lev a b).
Proof.
  destruct (computeEditDistanceSteps_inv a b) as (r & Hr & HI).
  exists r. split; [done|].
  rewrite (inv_dp _ _ _ _ _ HI) by lia. by rewrite T_full.
Qed.

(** C5: the returned table has [table[i][0] = i] for every row index
    [i <= lenA] and [table[0][j] = j] for every column index [j <= lenB]. *)
Theorem boundary_values a b i j :
  i ≤ length a → j ≤ length b →
  ∃ r, computeEditDistanceSteps a b = inr r ∧
       get2 (dp r) i 0 = inr i ∧ get2 (dp r) 0 j = inr j.
Proof.
  intros Hi Hj.
  destruct (computeEditDistanceSteps_inv a b) as (r & Hr & HI).
  exists r. split; [done|].
  rewrite !(inv_dp _ _ _ _ _ HI) by lia.
  by rewrite T_col0, T_row0.
Qed.

Lemma boundary_values_witness :
  2 ≤ length (js "ab") ∧ 1 ≤ length (js "b") ∧
  ∃ r, computeEditDistanceSteps (js "ab") (js "b") = inr r ∧
       get2 (dp r) 2 0 = inr 2 ∧ get2 (dp r) 0 1 = inr 1.
Proof.
  assert (H1 : 2 ≤ length (js "ab")) by (simpl; lia).
  assert (H2 : 1 ≤ length (js "b")) by (simpl; lia).
  split; [exact H1|]. split; [exact H2|].
  exact (boundary_values (js "ab") (js "b") 2 1 H1 H2).
Defined.

(** C6: the builder returns a result, and never fails, on every pair of
    strings; on two empty strings (the empty list of code units) the
    table is [[0]], the distance is 0 and exactly one step is returned. *)
Theorem trace_builder_total :
  (∀ a b, ∃ r, computeEditDistanceSteps a b = inr r) ∧
  ∃ r, computeEditDistanceSteps [] [] = inr r ∧
       dp r = [[0]] ∧ get2 (dp r) 0 0 = inr 0 ∧ length (steps r) = 1.
Proof.
  split.
  - intros a b. destruct (computeEditDistanceSteps_inv a b) as (r & Hr & _).
    eauto.
  - eexists. split; [reflexivity|]. done.
Qed.

(** C4: the step list has [(lenA+1) + lenB + lenA*lenB] entries, their
    coordinates are, in this order, column 0 from row 0 to row [lenA],
    row 0 from column 1 to column [lenB], then the interior row by row,
    and the last step is that of cell [(lenA, lenB)]. *)
Theorem step_order a b :
  ∃ r, computeEditDistanceSteps a b = inr r ∧
       length (steps r) = (length a + 1) + length b + length a * length b ∧
       (λ s, (s_i s, s_j s)) <$> steps r = cell_order (length a) (length b) ∧
       (λ s, (s_i s, s_j s)) <$> last (steps r) = Some (length a, length b).
Proof.
  destruct (computeEditDistanceSteps_inv a b) as (r & Hr & HI).
  exists r. split; [done|].
  assert ((λ s, (s_i s, s_j s)) <$> steps r = cell_order (length a) (length b))
    as Hc.
  { rewrite (inv_steps _ _ _ _ _ HI), <-list_fmap_compose.
    rewrite <-(list_fmap_id (cell_order _ _)) at 2.
    apply list_fmap_ext. intros k c _. apply cell_step_coords. }
  split; [|split; [done|]].
  - by rewrite <-(length_fmap (λ s, (s_i s, s_j s))), Hc, length_cell_order.
  - by rewrite <-fmap_last, Hc, last_cell_order.
Qed.

(** C3: for an interior cell [(i, j)] the step pushed for it lists the
    three candidates delete, insert and diagonal, built from the three
    neighbouring table entries; the value of its chosen candidate and
    [table[i][j]] are both the least of the three candidate values; and
    the chosen candidate is the diagonal one when it attains that least
    value, else the delete one when it does, else the insert one. *)
Theorem interior_step a b i j :
  1 ≤ i ≤ length a → 1 ≤ j ≤ length b →
  ∃ r s up left dg,
    computeEditDistanceSteps a b = inr r ∧
    steps r !! ((length a + 1) + length b + (i - 1) * length b + (j - 1)) = Some s ∧
    s_i s = i ∧ s_j s = j ∧
    get2 (dp r) (i - 1) j = inr up ∧
    get2 (dp r) i (j - 1) = inr left ∧
    get2 (dp r) (i - 1) (j - 1) = inr dg ∧
    let delC := mkCandidate OpDelete (Some (i - 1, j)) (up + 1) in
    let insC := mkCandidate OpInsert (Some (i, j - 1)) (left + 1) in
    let diag :=
      mkCandidate
        (if decide (char_at a (i - 1) = char_at b (j - 1)) then OpMatch else OpReplace)
        (Some (i - 1, j - 1))
        (dg + (if decide (char_at a (i - 1) = char_at b (j - 1)) then 0 else 1)) in
    let least := Nat.min (Nat.min (c_value delC) (c_value insC)) (c_value diag) in
    candidates s = [delC; insC; diag] ∧
    c_value (chosen s) = least ∧
    get2 (dp r) i j = inr least ∧
    chosen s = (if decide (c_value diag = least) then diag
                else if decide (c_value delC = least) then delC
                else insC).
Proof.
  intros Hi Hj.
  destruct (computeEditDistanceSteps_inv a b) as (r & Hr & HI).
  exists r, (cell_step a b (i, j)), (T a b (i - 1) j), (T a b i (j - 1)),
    (T a b (i - 1) (j - 1)).
  split; [done|]. split.
  { rewrite (inv_steps _ _ _ _ _ HI), list_lookup_fmap.
    by rewrite cell_order_interior. }
  split; [apply cell_step_i|]. split; [apply cell_step_j|].
  rewrite !(inv_dp _ _ _ _ _ HI) by lia.
  do 3 (split; [done|]).
  pose proof (interior_chosen_value a b i j Hi Hj) as Hv.
  destruct i as [|i]; [lia|]. destruct j as [|j]; [lia|].
  cbv zeta. simpl cell_step. repeat split.
  - simpl. rewrite Hv, T_interior by lia. unfold min3.
    by rewrite !Nat.sub_0_r.
  - simpl. rewrite T_interior by lia. unfold min3.
    by rewrite !Nat.sub_0_r.
Qed.

Lemma interior_step_witness :
  1 ≤ 2 ≤ length (js "ab") ∧ 1 ≤ 1 ≤ length (js "b") ∧
  ∃ r s,
    computeEditDistanceSteps (js "ab") (js "b") = inr r ∧
    steps r !! 5 = Some s ∧ s_i s = 2 ∧ s_j s = 1 ∧
    get2 (dp r) 2 1 = inr (c_value (chosen s)).
Proof.
  assert (H1 : 1 ≤ 2 ≤ length (js "ab")) by (simpl; lia).
  assert (H2 : 1 ≤ 1 ≤ length (js "b")) by (simpl; lia).
  split; [exact H1|]. split; [exact H2|].
  destruct (interior_step (js "ab") (js "b") 2 1 H1 H2)
    as (r & s & up & left & dg & Hr & Hs & Hi & Hj & _ & _ & _ & _ & Hv & Hd & _).
  exists r, s. rewrite Hv. do 4 (split; [assumption|]). exact Hd.
Defined.

(** C10: in every returned step the recorded cost is the value of the
    chosen candidate and is the entry of the returned table at the
    coordinates of the step. *)
Theorem step_cost_is_final a b :
  ∃ r, computeEditDistanceSteps a b = inr r ∧
       Forall (λ s, cost s = c_value (chosen s) ∧
                    get2 (dp r) (s_i s) (s_j s) = inr (cost s)) (steps r).
Proof.
  destruct (computeEditDistanceSteps_inv a b) as (r & Hr & HI).
  exists r. split; [done|].
  rewrite (inv_steps _ _ _ _ _ HI), Forall_fmap, Forall_forall.
  intros [i j] Hc%cell_order_bounds. unfold compose.
  rewrite cell_step_i, cell_step_j.
  rewrite (inv_dp _ _ _ _ _ HI) by done.
  destruct i as [|i], j as [|j]; simpl.
  - done.
  - by rewrite T_row0 by lia.
  - by rewrite T_col0 by lia.
  - by rewrite <-interior_chosen_value by lia.
Qed.

(** C9, as stated, fails at the step of cell (0,0): its chosen operation
    is [init], so not every step of abc against the empty string chooses
    [delete]. *)
Lemma all_delete_fails :
  ∃ r, computeEditDistanceSteps (js "abc") [] = inr r ∧
       ¬ Forall (λ s, c_op (chosen s) = OpDelete) (steps r).
Proof.
  eexists. split; [reflexivity|]. simpl. intros H.
  apply Forall_cons_1 in H as [H _]. discriminate H.
Qed.

(** C9, amended: abc against the empty string has distance 3 and every
    step after the one of cell (0,0) chooses [delete]; the empty string
    against xyz has distance
    3 and every step after the one of cell (0,0) chooses [insert]; the
    step of cell (0,0) chooses [init] in both. *)
Theorem one_sided_scenarios :
  (∃ r, computeEditDistanceSteps (js "abc") [] = inr r ∧
        get2 (dp r) 3 0 = inr 3 ∧
        c_op ∘ chosen <$> steps r = [OpInit; OpDelete; OpDelete; OpDelete]) ∧
  (∃ r, computeEditDistanceSteps [] (js "xyz") = inr r ∧
        get2 (dp r) 0 3 = inr 3 ∧
        c_op ∘ chosen <$> steps r = [OpInit; OpInsert; OpInsert; OpInsert]).
Proof. split; (eexists; split; [reflexivity|]; done). Qed.

(** C2, as stated, fails: on the one-cell table and the coordinates
    (5,5), which are outside it, the reconstructor returns the set that
    holds the start cell; nothing is signalled. *)
Lemma out_of_range_returns :
  ¬ in_table [[None]] 5 5 ∧
  buildBacktrace 1 [[None]] 5 5 = Some {[ "5,5" ]}.
Proof.
  split; [|reflexivity].
  intros (_ & _ & r & Hr & _). discriminate Hr.
Qed.

(** C2, amended: for every parent table and every pair of coordinates
    outside it the reconstructor returns, on its first test, the set
    holding only the key of the start coordinates; it has no error. *)
Theorem buildBacktrace_out_of_range parent endI endJ fuel :
  ¬ in_table parent endI endJ →
  buildBacktrace (S fuel) parent endI endJ = Some {[ key endI endJ ]}.
Proof.
  intros Hout. unfold buildBacktrace. simpl.
  replace (parent_at parent endI endJ) with (@None Link); [done|].
  unfold parent_at. case_decide as Hi; [|done].
  destruct (parent !! Z.to_nat endI) as [r|] eqn:Hr; [|done].
  case_decide as Hj; [|done].
  destruct (r !! Z.to_nat endJ) as [l|] eqn:Hl; [|done].
  destruct Hout. split; [done|]. split; [done|].
  exists r. split; [done|]. by eapply lookup_lt_Some.
Qed.

Lemma buildBacktrace_out_of_range_witness :
  ¬ in_table [[None]; [None]] (-1) 0 ∧
  buildBacktrace 3 [[None]; [None]] (-1) 0 = Some {[ key (-1) 0 ]}.
Proof.
  assert (H : ¬ in_table [[None]; [None]] (-1) 0).
  { intros (Hi & _). lia. }
  split; [exact H|].
  exact (buildBacktrace_out_of_range [[None]; [None]] (-1) 0 2 H).
Defined.

(** The parent table the builder returns holds, at every cell, the link
    given by the closed form. *)
Lemma builder_parent_links a b r :
  Inv a b (λ i j, i ≤ length a ∧ j ≤ length b)
    (cell_order (length a) (length b)) r →
  ∀ i j : nat, i ≤ length a → j ≤ length b →
    parent_at (parent r) (Z.of_nat i) (Z.of_nat j) = cell_link a b i j.
Proof.
  intros HI i j Hi Hj. apply parent_at_get2.
  by apply (inv_parent _ _ _ _ _ HI).
Qed.

(** C7: on the parent table of the builder and a start cell inside it,
    the reconstructor returns after entering the body of its loop at
    most [endI + endJ + 1] times, the last time to find no parent; and
    every link of the table leads to a cell whose [i + j] is smaller by
    exactly 1 (delete, insert) or exactly 2 (match, replace), with
    neither coordinate larger. *)
Theorem backtrace_terminates a b (endI endJ : nat) :
  endI ≤ length a → endJ ≤ length b →
  ∃ r path,
    computeEditDistanceSteps a b = inr r ∧
    buildBacktrace (endI + endJ + 1) (parent r)
      (Z.of_nat endI) (Z.of_nat endJ) = Some path ∧
    ∀ (i j : nat) p,
      i ≤ length a → j ≤ length b →
      parent_at (parent r) (Z.of_nat i) (Z.of_nat j) = Some p →
      l_i p ≤ i ∧ l_j p ≤ j ∧
      (((l_op p = OpDelete ∨ l_op p = OpInsert) ∧ l_i p + l_j p + 1 = i + j) ∨
       ((l_op p = OpMatch ∨ l_op p = OpReplace) ∧ l_i p + l_j p + 2 = i + j)).
Proof.
  intros Hi Hj.
  destruct (computeEditDistanceSteps_inv a b) as (r & Hr & HI).
  pose proof (builder_parent_links a b r HI) as Hlinks.
  destruct (backtrace_loop_returns a b (parent r) Hlinks (endI + endJ + 1)
              {[key (Z.of_nat endI) (Z.of_nat endJ)]} endI endJ)
    as [path Hpath]; [lia..|].
  exists r, path. split; [done|]. split; [done|].
  intros i j p Hi' Hj'. rewrite Hlinks by done.
  intros [(?&?&?&?)|[(?&?&?&?)|(?&?&?&?&?)]]%cell_link_cases;
    (split; [lia|]); (split; [lia|]).
  - left. split; [auto|lia].
  - left. split; [auto|lia].
  - right. split; [auto|lia].
Qed.

Lemma backtrace_terminates_witness :
  2 ≤ length (js "ab") ∧ 1 ≤ length (js "b") ∧
  ∃ r path,
    computeEditDistanceSteps (js "ab") (js "b") = inr r ∧
    buildBacktrace 4 (parent r) 2 1 = Some path.
Proof.
  assert (H1 : 2 ≤ length (js "ab")) by (simpl; lia).
  assert (H2 : 1 ≤ length (js "b")) by (simpl; lia).
  split; [exact H1|]. split; [exact H2|].
  destruct (backtrace_terminates (js "ab") (js "b") 2 1 H1 H2)
    as (r & path & Hr & Hp & _).
  exists r, path. split; [exact Hr|exact Hp].
Defined.

(** C8: on the parent table of the builder and its final cell, the
    reconstructor returns a set that holds the keys of (0,0) and of
    (lenA, lenB); the set is made of the keys of the cells of the parent
    chain, which starts at (lenA, lenB), ends at (0,0), and in which each
    cell is the one before it moved by (-1,0), (0,-1) or (-1,-1). *)
Theorem backtrace_path a b :
  ∃ r path,
    computeEditDistanceSteps a b = inr r ∧
    buildBacktrace (length a + length b + 1) (parent r)
      (Z.of_nat (length a)) (Z.of_nat (length b)) = Some path ∧
    key 0 0 ∈ path ∧
    key (Z.of_nat (length a)) (Z.of_nat (length b)) ∈ path ∧
    let chain := parent_chain (length a + length b + 1) (parent r)
                   (Z.of_nat (length a)) (Z.of_nat (length b)) in
    path = list_to_set (uncurry key <$> chain) ∧
    head chain = Some (Z.of_nat (length a), Z.of_nat (length b)) ∧
    last chain = Some (0%Z, 0%Z) ∧
    ∀ k c c', chain !! k = Some c → chain !! S k = Some c' → moves_back c c'.
Proof.
  destruct (computeEditDistanceSteps_inv a b) as (r & Hr & HI).
  pose proof (builder_parent_links a b r HI) as Hlinks.
  destruct (backtrace_loop_returns a b (parent r) Hlinks
              (length a + length b + 1)
              {[key (Z.of_nat (length a)) (Z.of_nat (length b))]}
              (length a) (length b)) as [path Hpath]; [lia..|].
  pose proof (buildBacktrace_chain _ _ _ _ _ Hpath) as Hset.
  pose proof (parent_chain_head (length a + length b + 1) (parent r)
                (Z.of_nat (length a)) (Z.of_nat (length b))) as Hhead.
  pose proof (parent_chain_last a b (parent r) Hlinks
                (length a + length b + 1) (length a) (length b)) as Hlast.
  exists r, path. split; [done|]. split; [done|]. split; [|split].
  - rewrite Hset, elem_of_list_to_set, list_elem_of_fmap.
    exists (0%Z, 0%Z). split; [done|]. apply last_Some_elem_of, Hlast; lia.
  - rewrite Hset, elem_of_list_to_set, list_elem_of_fmap.
    exists (Z.of_nat (length a), Z.of_nat (length b)). split; [done|].
    by apply head_Some_elem_of.
  - cbv zeta. split; [done|]. split; [done|]. split; [apply Hlast; lia|].
    intros k c c'. by apply (parent_chain_moves a b (parent r) Hlinks).
Qed.

(** * More of the component: keys, playback, the inspector *)

(** ** Keys name cells *)

Lemma comma_free_pretty_N_go x s : comma_free s → comma_free (pretty_N_go x s).
Proof.
  revert s. induction (N.lt_wf_0 x) as [x _ IH]; intros s Hs.
  assert (x = 0 ∨ 0 < x)%N as [->|Hx] by lia.
  - by rewrite pretty_N_go_0.
  - rewrite pretty_N_go_step by done. apply IH; [by apply N.div_lt|].
    split; [|done]. unfold pretty_N_char. by repeat case_match.
Qed.

Lemma comma_free_pretty_N (x : N) : comma_free (pretty x).
Proof.
  unfold pretty, pretty_N. case_decide; [by split|].
  by apply comma_free_pretty_N_go.
Qed.

Lemma comma_free_pretty_Z (z : Z) : comma_free (pretty z).
Proof.
  destruct z as [|p|p]; unfold pretty, pretty_Z.
  - by split.
  - apply (comma_free_pretty_N (Npos p)).
  - split; [done|]. apply (comma_free_pretty_N (Npos p)).
Qed.

Lemma comma_split_inj s1 s2 t1 t2 :
  comma_free s1 → comma_free s2 →
  s1 +:+ "," +:+ t1 = s2 +:+ "," +:+ t2 → s1 = s2 ∧ t1 = t2.
Proof.
  assert (Hnil : ∀ s, "" +:+ s = s) by done.
  assert (Hcons : ∀ c s t, String c s +:+ t = String c (s +:+ t)) by done.
  revert s2. induction s1 as [|c s1 IH]; intros [|c' s2];
    repeat (rewrite Hnil || rewrite Hcons); simpl.
  - by intros _ _ [= ->].
  - intros _ [Hc _] [= <-]. done.
  - intros [Hc _] _ [= ->]. done.
  - intros [_ H1] [_ H2] [= <- Heq]. destruct (IH s2 H1 H2 Heq) as [-> ->]. done.
Qed.

(** Two cells with the same key are the same cell. *)
Lemma key_inj i j i' j' : key i j = key i' j' → i = i' ∧ j = j'.
Proof.
  unfold key. intros H.
  apply comma_split_inj in H as [Hi Hj]; try apply comma_free_pretty_Z.
  split; by apply (inj pretty).
Qed.

(** ** Every cell has one step *)

Lemma cell_order_index m n i j :
  i ≤ m → j ≤ n → cell_order m n !! cell_index m n i j = Some (i, j).
Proof.
  intros Hi Hj. destruct j as [|j'].
  - replace (cell_index m n i 0) with i by (by destruct i).
    unfold cell_order, col_cells.
    rewrite lookup_app_l by (rewrite length_fmap, length_seq; lia).
    by rewrite list_lookup_fmap, lookup_seq_lt by lia.
  - destruct i as [|i'].
    + simpl. unfold cell_order, col_cells.
      rewrite lookup_app_r; rewrite length_fmap, length_seq; [|lia].
      unfold row_cells.
      rewrite lookup_app_l by (rewrite length_fmap, length_seq; lia).
      rewrite list_lookup_fmap, lookup_seq_lt by lia.
      simpl. do 2 f_equal. lia.
    + pose proof (cell_order_interior m n (S i') (S j')) as H.
      simpl in H. rewrite !Nat.sub_0_r in H. simpl. apply H; lia.
Qed.

Lemma NoDup_cell_order m n : NoDup (cell_order m n).
Proof.
  unfold cell_order, col_cells, row_cells, interior_cells, line_cells.
  apply NoDup_app. split; [|split].
  - apply NoDup_fmap_2; [|apply NoDup_seq]. by intros x y [= ->].
  - intros [i j] (k & [= -> ->] & _)%list_elem_of_fmap.
    rewrite elem_of_app, list_elem_of_fmap, list_elem_of_bind.
    intros [(k' & [= -> ?] & Hk%elem_of_seq)
           |(k' & (k'' & [= -> ?] & Hk''%elem_of_seq)%list_elem_of_fmap & _)]; lia.
  - apply NoDup_app. split; [|split].
    + apply NoDup_fmap_2; [|apply NoDup_seq]. by intros x y [= ->].
    + intros [i j] (k & [= -> ->] & _)%list_elem_of_fmap.
      rewrite list_elem_of_bind.
      intros (k' & (k'' & [= <- ?] & _)%list_elem_of_fmap & Hk'%elem_of_seq). lia.
    + apply NoDup_bind.
      * intros i i' [x y] _ _ (k & [= -> ->] & _)%list_elem_of_fmap
          (k' & [= -> _] & _)%list_elem_of_fmap. done.
      * intros i _. apply NoDup_fmap_2; [|apply NoDup_seq]. by intros x y [= ->].
      * apply NoDup_seq.
Qed.

Lemma cell_order_lookup_inv m n k i j :
  cell_order m n !! k = Some (i, j) →
  i ≤ m ∧ j ≤ n ∧ k = cell_index m n i j.
Proof.
  intros Hk.
  destruct (cell_order_bounds m n i j) as [Hi Hj];
    [by eapply list_elem_of_lookup_2|].
  split; [done|]. split; [done|].
  eapply NoDup_lookup; [apply NoDup_cell_order|done|by apply cell_order_index].
Qed.

(** ** More on the reference distance *)

Lemma edits_swap a b n : edits a b n → edits b a n.
Proof.
  induction 1;
    [apply edits_done | by apply edits_insert | by apply edits_delete
    | by apply edits_keep | by apply edits_subst].
Qed.

Lemma lev_swap a b : lev a b = lev b a.
Proof.
  apply Nat.le_antisymm; apply lev_le_edits, edits_swap, edits_lev.
Qed.

Lemma edits_lengths a b n :
  edits a b n → length a ≤ length b + n ∧ length b ≤ length a + n.
Proof. induction 1; simpl; lia. Qed.

Lemma lev_lower a b :
  length a ≤ length b + lev a b ∧ length b ≤ length a + lev a b.
Proof. apply edits_lengths, edits_lev. Qed.

Lemma lev_upper a b : lev a b ≤ length a `max` length b.
Proof.
  revert b. induction a as [|x a IH]; intros [|y b].
  - done.
  - simpl. lia.
  - rewrite lev_nil_r. simpl. lia.
  - rewrite lev_cons_cons. specialize (IH b).
    pose proof (subst_cost_le x y). unfold min3. simpl. lia.
Qed.

Lemma lev_refl a : lev a a = 0.
Proof.
  induction a as [|x a IH]; [done|].
  rewrite lev_cons_cons. unfold subst_cost. rewrite decide_True by done.
  unfold min3. lia.
Qed.

Lemma edits_zero a b n : edits a b n → n = 0 → a = b.
Proof. induction 1; intros Hn; try lia; [done|]. f_equal. auto. Qed.

Lemma lev_zero a b : lev a b = 0 ↔ a = b.
Proof.
  split.
  - intros H. eapply edits_zero; [apply edits_lev|done].
  - intros ->. apply lev_refl.
Qed.

(** Dropping the first unit of the source costs at most one more edit. *)
Lemma edits_drop_first x a b n :
  edits (x :: a) b n → ∃ n', n' ≤ S n ∧ edits a b n'.
Proof.
  remember (x :: a) as xa eqn:E. intros H. revert x a E.
  induction H as [|x' a' b n H IH|y a' b n H IH|x' a' b n H IH|x' y a' b n H IH];
    intros x a E.
  - done.
  - injection E as -> ->. exists n. split; [lia|done].
  - destruct (IH x a E) as (n' & Hn' & He).
    exists (S n'). split; [lia|]. by apply edits_insert.
  - injection E as -> ->. exists (S n). split; [lia|]. by apply edits_insert.
  - injection E as -> ->. exists (S n). split; [lia|]. by apply edits_insert.
Qed.

Lemma lev_drop_first x a b : lev a b ≤ S (lev (x :: a) b).
Proof.
  destruct (edits_drop_first x a b _ (edits_lev (x :: a) b)) as (n' & Hn' & He).
  apply lev_le_edits in He. lia.
Qed.

Lemma lev_snoc_l x a b :
  lev (a ++ [x]) b ≤ S (lev a b) ∧ lev a b ≤ S (lev (a ++ [x]) b).
Proof.
  split.
  - apply lev_le_edits, edits_delete_last, edits_lev.
  - rewrite <-(lev_reverse a b), <-(lev_reverse (a ++ [x]) b), reverse_snoc.
    apply lev_drop_first.
Qed.

Lemma lev_snoc_r y a b :
  lev a (b ++ [y]) ≤ S (lev a b) ∧ lev a b ≤ S (lev a (b ++ [y])).
Proof.
  rewrite (lev_swap a (b ++ [y])), (lev_swap a b). apply lev_snoc_l.
Qed.

(** The same facts on the prefixes the table is indexed by. *)
Lemma T_swap a b i j : T a b i j = T b a j i.
Proof. apply lev_swap. Qed.

Lemma T_bounds a b i j :
  i ≤ length a → j ≤ length b →
  i ≤ j + T a b i j ∧ j ≤ i + T a b i j ∧ T a b i j ≤ i `max` j.
Proof.
  intros Hi Hj. unfold T.
  pose proof (lev_lower (take i a) (take j b)) as Hl.
  pose proof (lev_upper (take i a) (take j b)) as Hu.
  rewrite !length_take_le in Hl, Hu by done. lia.
Qed.

Lemma T_down a b i j :
  i < length a →
  T a b (S i) j ≤ S (T a b i j) ∧ T a b i j ≤ S (T a b (S i) j).
Proof.
  intros Hi. destruct (lookup_lt_is_Some_2 a i Hi) as [x Hx].
  unfold T. rewrite (take_S_r a i x Hx). apply lev_snoc_l.
Qed.

Lemma T_right a b i j :
  j < length b →
  T a b i (S j) ≤ S (T a b i j) ∧ T a b i j ≤ S (T a b i (S j)).
Proof.
  intros Hj. destruct (lookup_lt_is_Some_2 b j Hj) as [y Hy].
  unfold T. rewrite (take_S_r b j y Hy). apply lev_snoc_r.
Qed.

(** ** The whole table *)

(** X1: the returned table and parent table have [lenA + 1] rows of
    [lenB + 1] entries, and every entry [table[i][j]] is the reference
    distance between the first [i] units of [a] and the first [j] units
    of [b]. *)
Theorem table_prefix_distance a b :
  ∃ r, computeEditDistanceSteps a b = inr r ∧
       shaped (length a + 1) (length b + 1) (dp r) ∧
       shaped (length a + 1) (length b + 1) (parent r) ∧
       ∀ i j, i ≤ length a → j ≤ length b →
         get2 (dp r) i j = inr (lev (take i a) (take j b)).
Proof.
  destruct (computeEditDistanceSteps_inv a b) as (r & Hr & HI).
  exists r. split; [done|].
  split; [apply (inv_dp_shape _ _ _ _ _ HI)|].
  split; [apply (inv_parent_shape _ _ _ _ _ HI)|].
  intros i j Hi Hj. by apply (inv_dp _ _ _ _ _ HI).
Qed.

(** X2: swapping the two strings transposes the table; in particular
    the distance from [a] to [b] is the distance from [b] to [a]. *)
Theorem table_transpose a b i j :
  i ≤ length a → j ≤ length b →
  ∃ r r' v,
    computeEditDistanceSteps a b = inr r ∧
    computeEditDistanceSteps b a = inr r' ∧
    get2 (dp r) i j = inr v ∧ get2 (dp r') j i = inr v.
Proof.
  intros Hi Hj.
  destruct (computeEditDistanceSteps_inv a b) as (r & Hr & HI).
  destruct (computeEditDistanceSteps_inv b a) as (r' & Hr' & HI').
  exists r, r', (T a b i j). do 2 (split; [done|]).
  rewrite (inv_dp _ _ _ _ _ HI), (inv_dp _ _ _ _ _ HI') by done.
  by rewrite (T_swap b a).
Qed.

Lemma table_transpose_witness :
  2 ≤ length (js "ab") ∧ 1 ≤ length (js "b") ∧
  ∃ r r' v,
    computeEditDistanceSteps (js "ab") (js "b") = inr r ∧
    computeEditDistanceSteps (js "b") (js "ab") = inr r' ∧
    get2 (dp r) 2 1 = inr v ∧ get2 (dp r') 1 2 = inr v.
Proof.
  assert (H1 : 2 ≤ length (js "ab")) by (simpl; lia).
  assert (H2 : 1 ≤ length (js "b")) by (simpl; lia).
  split; [exact H1|]. split; [exact H2|].
  exact (table_transpose (js "ab") (js "b") 2 1 H1 H2).
Defined.

(** X3: every entry [table[i][j]] lies between [|i - j|] and
    [max(i, j)]. *)
Theorem table_entry_bounds a b i j :
  i ≤ length a → j ≤ length b →
  ∃ r v, computeEditDistanceSteps a b = inr r ∧
         get2 (dp r) i j = inr v ∧
         i ≤ j + v ∧ j ≤ i + v ∧ v ≤ i `max` j.
Proof.
  intros Hi Hj.
  destruct (computeEditDistanceSteps_inv a b) as (r & Hr & HI).
  exists r, (T a b i j). split; [done|].
  split; [by apply (inv_dp _ _ _ _ _ HI)|]. by apply T_bounds.
Qed.

Lemma table_entry_bounds_witness :
  2 ≤ length (js "ab") ∧ 0 ≤ length (js "b") ∧
  ∃ r v, computeEditDistanceSteps (js "ab") (js "b") = inr r ∧
         get2 (dp r) 2 0 = inr v ∧ 2 ≤ 0 + v ∧ 0 ≤ 2 + v ∧ v ≤ 2 `max` 0.
Proof.
  assert (H1 : 2 ≤ length (js "ab")) by (simpl; lia).
  assert (H2 : 0 ≤ length (js "b")) by (simpl; lia).
  split; [exact H1|]. split; [exact H2|].
  exact (table_entry_bounds (js "ab") (js "b") 2 0 H1 H2).
Defined.

(** X4: the distance returned is 0 exactly when the two strings are the
    same sequence of code units. *)
Theorem distance_zero_iff_equal a b :
  ∃ r d, computeEditDistanceSteps a b = inr r ∧
         get2 (dp r) (length a) (length b) = inr d ∧
         (d = 0 ↔ a = b).
Proof.
  destruct (computeEditDistanceSteps_inv a b) as (r & Hr & HI).
  exists r, (lev a b). split; [done|]. split; [|apply lev_zero].
  rewrite (inv_dp _ _ _ _ _ HI) by lia. by rewrite T_full.
Qed.

(** X5: two entries of the table that are neighbours in a column or in
    a row differ by at most 1. *)
Theorem table_neighbours a b i j i' j' :
  i' ≤ length a → j' ≤ length b →
  (i' = S i ∧ j' = j) ∨ (i' = i ∧ j' = S j) →
  ∃ r u v, computeEditDistanceSteps a b = inr r ∧
           get2 (dp r) i j = inr u ∧ get2 (dp r) i' j' = inr v ∧
           v ≤ S u ∧ u ≤ S v.
Proof.
  intros Hi Hj Hadj.
  destruct (computeEditDistanceSteps_inv a b) as (r & Hr & HI).
  exists r, (T a b i j), (T a b i' j'). split; [done|].
  rewrite !(inv_dp _ _ _ _ _ HI) by lia. do 2 (split; [done|]).
  destruct Hadj as [[-> ->]|[-> ->]]; [apply T_down|apply T_right]; lia.
Qed.

Lemma table_neighbours_witness :
  2 ≤ length (js "ab") ∧ 1 ≤ length (js "b") ∧
  ((2 = S 1 ∧ 1 = 1) ∨ (2 = 1 ∧ 1 = S 1)) ∧
  ∃ r u v, computeEditDistanceSteps (js "ab") (js "b") = inr r ∧
           get2 (dp r) 1 1 = inr u ∧ get2 (dp r) 2 1 = inr v ∧
           v ≤ S u ∧ u ≤ S v.
Proof.
  assert (H1 : 2 ≤ length (js "ab")) by (simpl; lia).
  assert (H2 : 1 ≤ length (js "b")) by (simpl; lia).
  assert (H3 : (2 = S 1 ∧ 1 = 1) ∨ (2 = 1 ∧ 1 = S 1)) by (left; done).
  split; [exact H1|]. split; [exact H2|]. split; [exact H3|].
  exact (table_neighbours (js "ab") (js "b") 1 1 2 1 H1 H2 H3).
Defined.

(** ** What a link accounts for *)

Lemma diag_op_match a b i j :
  diag_op a b i j = OpMatch ↔ char_at a (i - 1) = char_at b (j - 1).
Proof. unfold diag_op. case_decide; naive_solver. Qed.

(** The value of a cell is the value of the cell its link leads to, plus
    nothing for a match and plus one for any other operation; and a
    match link is only written where the two units are equal. *)
Lemma cell_link_value a b i j p :
  i ≤ length a → j ≤ length b → cell_link a b i j = Some p →
  T a b i j = T a b (l_i p) (l_j p) + (if decide (l_op p = OpMatch) then 0 else 1) ∧
  (l_op p = OpMatch ↔
   1 ≤ i ∧ 1 ≤ j ∧ l_i p = i - 1 ∧ l_j p = j - 1 ∧
   char_at a (i - 1) = char_at b (j - 1)).
Proof.
  intros Hi Hj. destruct i as [|i], j as [|j]; simpl.
  - done.
  - intros [= <-]. simpl. rewrite !T_row0 by lia. split; [lia|].
    split; [done|lia].
  - intros [= <-]. simpl. rewrite !T_col0 by lia. split; [lia|].
    split; [done|lia].
  - pose proof (interior_chosen_value a b (S i) (S j)) as Hv.
    destruct (choose_cases
      (min3 (c_value (delete_cand a b (S i) (S j)))
            (c_value (insert_cand a b (S i) (S j)))
            (c_value (diag_cand a b (S i) (S j))))
      (diag_cand a b (S i) (S j)) (delete_cand a b (S i) (S j))
      (insert_cand a b (S i) (S j))) as [H|[H|H]];
      unfold interior_chosen in *; rewrite H in *; simpl in *;
      intros [= <-]; simpl; rewrite <-Hv by lia; rewrite ?Nat.sub_0_r.
    + pose proof (diag_op_match a b (S i) (S j)) as Hm. simpl in Hm.
      rewrite !Nat.sub_0_r in Hm. unfold diag_op in *. simpl in *.
      rewrite !Nat.sub_0_r in *.
      destruct (decide (char_at a i = char_at b j)) as [He|Hne]; simpl.
      * split; [done|]. split; [intros _; repeat split; auto; lia|done].
      * split; [done|]. split; [done|]. intros (_ & _ & _ & _ & ?). done.
    + split; [done|]. split; [done|lia].
    + split; [done|]. split; [done|lia].
Qed.

Lemma parent_chain_length fuel parent i j :
  length (parent_chain fuel parent i j) = S (length (chain_ops fuel parent i j)).
Proof.
  revert i j. induction fuel as [|fuel IH]; intros i j; simpl; [done|].
  destruct (parent_at parent i j); simpl; [by rewrite IH|done].
Qed.

Section path_cost.
Variables a b : jsstring.
Variable parent : list (list (option Link)).
Hypothesis parent_links : ∀ i j : nat,
  i ≤ length a → j ≤ length b →
  parent_at parent (Z.of_nat i) (Z.of_nat j) = cell_link a b i j.

Lemma chain_ops_counts fuel (i j : nat) :
  i ≤ length a → j ≤ length b → i + j ≤ fuel →
  let ops := chain_ops fuel parent (Z.of_nat i) (Z.of_nat j) in
  length (filter (λ o, o ≠ OpMatch) ops) = T a b i j ∧
  length (filter (λ o, o ≠ OpInsert) ops) = i ∧
  length (filter (λ o, o ≠ OpDelete) ops) = j ∧
  OpInit ∉ ops.
Proof using parent_links.
  revert i j. induction fuel as [|fuel IH]; intros i j Hi Hj Hf.
  - assert (i = 0 ∧ j = 0) as [-> ->] by lia. simpl.
    rewrite T_col0 by lia. repeat split; try done. apply not_elem_of_nil.
  - simpl. rewrite parent_links by done.
    destruct (cell_link a b i j) as [p|] eqn:Hp.
    + destruct (cell_link_value a b i j p Hi Hj Hp) as [Hv _].
      apply cell_link_cases in Hp. cbv zeta in IH.
      destruct (IH (l_i p) (l_j p)) as (IH1 & IH2 & IH3 & IH4); [lia..|].
      rewrite !filter_cons, not_elem_of_cons.
      destruct Hp as [(?&?&?&Hop)|[(?&?&?&Hop)|(?&?&?&?&[Hop|Hop])]];
        rewrite Hop in *; repeat case_decide; try done; simpl;
        rewrite ?IH1, ?IH2, ?IH3; repeat split; auto; lia.
    + destruct (decide (i + j = 0)) as [H0|Hpos].
      * assert (i = 0 ∧ j = 0) as [-> ->] by lia. simpl.
        rewrite T_col0 by lia. repeat split; try done. apply not_elem_of_nil.
      * destruct (cell_link_is_Some a b i j) as [p' Hp']; [lia|]. congruence.
Qed.
End path_cost.

(** X6: every non-null entry of the returned parent table accounts for
    the value of its cell: [table[i][j]] is the value at the cell the
    link leads to, plus 0 when the link is labelled match and plus 1
    otherwise; a link is labelled match only on a diagonal move between
    equal units. *)
Theorem link_accounts_for_value a b (i j : nat) :
  i ≤ length a → j ≤ length b → 0 < i + j →
  ∃ r p v w,
    computeEditDistanceSteps a b = inr r ∧
    get2 (parent r) i j = inr (Some p) ∧
    get2 (dp r) i j = inr v ∧
    get2 (dp r) (l_i p) (l_j p) = inr w ∧
    v = w + (if decide (l_op p = OpMatch) then 0 else 1) ∧
    (l_op p = OpMatch →
     l_i p = i - 1 ∧ l_j p = j - 1 ∧ char_at a (i - 1) = char_at b (j - 1)).
Proof.
  intros Hi Hj Hpos.
  destruct (computeEditDistanceSteps_inv a b) as (r & Hr & HI).
  destruct (cell_link_is_Some a b i j Hpos) as [p Hp].
  destruct (cell_link_value a b i j p Hi Hj Hp) as [Hv Hm].
  pose proof (cell_link_cases a b i j p Hp) as Hc.
  exists r, p, (T a b i j), (T a b (l_i p) (l_j p)). split; [done|].
  rewrite (inv_parent _ _ _ _ _ HI), !(inv_dp _ _ _ _ _ HI), Hp by lia.
  do 4 (split; [done|]). intros Hop. apply Hm in Hop. tauto.
Qed.

Lemma link_accounts_for_value_witness :
  2 ≤ length (js "ab") ∧ 1 ≤ length (js "b") ∧ 0 < 2 + 1 ∧
  ∃ r p v w,
    computeEditDistanceSteps (js "ab") (js "b") = inr r ∧
    get2 (parent r) 2 1 = inr (Some p) ∧
    get2 (dp r) 2 1 = inr v ∧
    get2 (dp r) (l_i p) (l_j p) = inr w ∧
    v = w + (if decide (l_op p = OpMatch) then 0 else 1).
Proof.
  assert (H1 : 2 ≤ length (js "ab")) by (simpl; lia).
  assert (H2 : 1 ≤ length (js "b")) by (simpl; lia).
  assert (H3 : 0 < 2 + 1) by lia.
  split; [exact H1|]. split; [exact H2|]. split; [exact H3|].
  destruct (link_accounts_for_value (js "ab") (js "b") 2 1 H1 H2 H3)
    as (r & p & v & w & Hr & Hp & Hv & Hw & He & _).
  exists r, p, v, w. do 4 (split; [assumption|]). exact He.
Defined.

(** X7: the links the reconstructor follows from the final cell spell
    out an optimal alignment: the number of links not labelled match is
    the distance, the links other than insert number [lenA], the links
    other than delete number [lenB], none is labelled init, and the walk
    visits one cell more than it follows links. *)
Theorem backtrace_is_optimal a b :
  ∃ r d,
    computeEditDistanceSteps a b = inr r ∧
    get2 (dp r) (length a) (length b) = inr d ∧ d = lev a b ∧
    let fuel := length a + length b + 1 in
    let ops := chain_ops fuel (parent r)
                 (Z.of_nat (length a)) (Z.of_nat (length b)) in
    length (filter (λ o, o ≠ OpMatch) ops) = d ∧
    length (filter (λ o, o ≠ OpInsert) ops) = length a ∧
    length (filter (λ o, o ≠ OpDelete) ops) = length b ∧
    (OpInit ∉ ops) ∧
    length (parent_chain fuel (parent r)
              (Z.of_nat (length a)) (Z.of_nat (length b))) = S (length ops).
Proof.
  destruct (computeEditDistanceSteps_inv a b) as (r & Hr & HI).
  pose proof (builder_parent_links a b r HI) as Hlinks.
  exists r, (lev a b). split; [done|]. split.
  { rewrite (inv_dp _ _ _ _ _ HI) by lia. by rewrite T_full. }
  split; [done|]. cbv zeta.
  destruct (chain_ops_counts a b (parent r) Hlinks
              (length a + length b + 1) (length a) (length b))
    as (H1 & H2 & H3 & H4); [lia..|].
  rewrite T_full in H1. do 4 (split; [done|]). apply parent_chain_length.
Qed.

(** ** The steps as the inspector reads them *)

Lemma char_at_is_Some a i : i < length a → is_Some (char_at a i).
Proof.
  intros Hi. unfold char_at.
  destruct (lookup_lt_is_Some_2 a i Hi) as [x ->]. by eexists.
Qed.

Lemma interior_chosen_in a b i j :
  interior_chosen a b i j = delete_cand a b i j ∨
  interior_chosen a b i j = insert_cand a b i j ∨
  interior_chosen a b i j = diag_cand a b i j.
Proof.
  unfold interior_chosen.
  destruct (choose_cases
    (min3 (c_value (delete_cand a b i j)) (c_value (insert_cand a b i j))
          (c_value (diag_cand a b i j)))
    (diag_cand a b i j) (delete_cand a b i j) (insert_cand a b i j))
    as [->|[->| ->]]; auto.
Qed.

(** X8: for every returned step the entry of the parent table at the
    coordinates of the step is the link made of the [from] and [op] of
    the chosen candidate, and is [null] exactly for the step of cell
    (0,0), the only one whose chosen candidate has no [from]. *)
Theorem parent_matches_chosen a b :
  ∃ r, computeEditDistanceSteps a b = inr r ∧
       Forall (λ s,
         get2 (parent r) (s_i s) (s_j s) =
           inr (match c_from (chosen s) with
                | Some (fi, fj) => Some (mkLink fi fj (c_op (chosen s)))
                | None => None
                end) ∧
         (c_from (chosen s) = None ↔ s_i s = 0 ∧ s_j s = 0)) (steps r).
Proof.
  destruct (computeEditDistanceSteps_inv a b) as (r & Hr & HI).
  exists r. split; [done|].
  rewrite (inv_steps _ _ _ _ _ HI), Forall_fmap, Forall_forall.
  intros [i j] Hc%cell_order_bounds. unfold compose.
  rewrite cell_step_i, cell_step_j.
  rewrite (inv_parent _ _ _ _ _ HI) by done.
  destruct i as [|i], j as [|j]; simpl; try (split; [done|]).
  - done.
  - split; [done|]. intros [_ [=]].
  - split; [done|]. intros [[=] _].
  - split; [|intros [[=] _]]. intros H.
    destruct (interior_chosen_in a b (S i) (S j)) as [E|[E|E]];
      rewrite E in H; discriminate H.
Qed.

Lemma is_chosen_true cur c :
  is_chosen cur c = true ↔
  c_op c = c_op (chosen cur) ∧ c_value c = c_value (chosen cur).
Proof. unfold is_chosen. by rewrite andb_true_iff, !bool_decide_eq_true. Qed.

Lemma highlight_three cur d i g :
  chosen cur ∈ [d; i; g] →
  c_op d ≠ c_op i → c_op d ≠ c_op g → c_op i ≠ c_op g →
  filter (λ c, is_chosen cur c = true) [d; i; g] = [chosen cur].
Proof.
  intros Hin H1 H2 H3. rewrite !filter_cons, filter_nil.
  apply elem_of_cons in Hin as [Hc|Hin];
    [|apply elem_of_cons in Hin as [Hc|Hc%list_elem_of_singleton]];
    repeat case_decide; rewrite ?is_chosen_true in *; rewrite Hc in *;
    first [done | exfalso; intuition congruence].
Qed.

(** X9: in every returned step the chosen candidate is one of the listed
    candidates, and the inspector's test (same [op], same [value])
    highlights that candidate and no other. *)
Theorem one_candidate_highlighted a b :
  ∃ r, computeEditDistanceSteps a b = inr r ∧
       Forall (λ s, chosen s ∈ candidates s ∧
                    filter (λ c, is_chosen s c = true) (candidates s) = [chosen s])
              (steps r).
Proof.
  destruct (computeEditDistanceSteps_inv a b) as (r & Hr & HI).
  exists r. split; [done|].
  rewrite (inv_steps _ _ _ _ _ HI), Forall_fmap, Forall_forall.
  intros [i j] _. unfold compose.
  assert (∀ s c, chosen s = c → candidates s = [c] →
            chosen s ∈ candidates s ∧
            filter (λ c, is_chosen s c = true) (candidates s) = [chosen s])
    as Hone.
  { intros s c Hc Hl. rewrite Hl, Hc. split; [by apply list_elem_of_singleton|].
    rewrite filter_cons_True; [done|]. apply is_chosen_true. by rewrite Hc. }
  destruct i as [|i], j as [|j]; [by eapply Hone..|].
  assert (chosen (cell_step a b (S i, S j)) ∈ candidates (cell_step a b (S i, S j)))
    as Hin.
  { simpl. destruct (interior_chosen_in a b (S i) (S j)) as [->|[->| ->]];
      rewrite !elem_of_cons; auto. }
  split; [done|]. simpl in *.
  pose proof (diag_op_cases a b (S i) (S j)) as Hd.
  apply highlight_three; [done|simpl..]; [done|destruct Hd as [-> | ->]; done..].
Qed.

(** X10: every returned step carries both characters: [aChar] and
    [bChar] are never [undefined], and they are the labels the grid
    shows on the row and on the column of the step's cell. *)
Theorem step_chars_are_header_labels a b :
  ∃ r, computeEditDistanceSteps a b = inr r ∧
       Forall (λ s, is_Some (aChar s) ∧ is_Some (bChar s) ∧
                    aChar s = header_label a (s_i s) ∧
                    bChar s = header_label b (s_j s)) (steps r).
Proof.
  destruct (computeEditDistanceSteps_inv a b) as (r & Hr & HI).
  exists r. split; [done|].
  rewrite (inv_steps _ _ _ _ _ HI), Forall_fmap, Forall_forall.
  intros [i j] [Hi Hj]%cell_order_bounds. unfold compose, header_label.
  destruct i as [|i], j as [|j]; simpl; rewrite ?Nat.sub_0_r;
    repeat split; eauto; apply char_at_is_Some; lia.
Qed.


(** X12: [opLabel] and [opBadgeClass] tell the five operations apart:
    different operations get different labels and different classes. *)
Theorem op_rendering_injective o o' :
  (opLabel o = opLabel o' → o = o') ∧
  (opBadgeClass o = opBadgeClass o' → o = o').
Proof. split; by destruct o, o'. Qed.

(** ** The revealed cells *)

Lemma for_loop_app {St} lo c1 c2 (body : nat → St → M St) st :
  for_loop lo (c1 + c2) body st =
  for_loop lo c1 body st ≫= for_loop (lo + c1) c2 body.
Proof.
  revert lo st. induction c1 as [|c1 IH]; intros lo st; simpl.
  - by rewrite Nat.add_0_r.
  - destruct (body lo st) as [e|st']; simpl; [done|].
    rewrite IH. by replace (S lo + c1) with (lo + S c1) by lia.
Qed.

Lemma revealed_take steps (count : nat) :
  count ≤ length steps →
  for_loop 0 count
    (λ k s,
       match steps !! k with
       | Some c => inr (s ∪ {[key (Z.of_nat (s_i c)) (Z.of_nat (s_j c))]})
       | None => inl TypeError
       end) (∅ : gset string) =
  inr (list_to_set
         ((λ c, key (Z.of_nat (s_i c)) (Z.of_nat (s_j c))) <$> take count steps)).
Proof.
  intros Hc.
  edestruct (for_loop_inv
    (λ c (s : gset string),
       s = list_to_set ((λ c, key (Z.of_nat (s_i c)) (Z.of_nat (s_j c)))
                          <$> take c steps))) as (s' & Hrun & Hs').
  3: { rewrite Hrun, Hs'. done. }
  - done.
  - intros c s Hlt ->. simpl.
    destruct (lookup_lt_is_Some_2 steps c) as [x Hx]; [lia|].
    rewrite Hx. eexists. split; [done|].
    rewrite (take_S_r _ _ _ Hx), fmap_app, list_to_set_app_L. simpl.
    by rewrite (right_id_L ∅ (∪)).
Qed.

Lemma revealed_in_range steps (idx : Z) :
  (-1 ≤ idx < Z.of_nat (length steps))%Z →
  revealed steps idx =
  inr (list_to_set
         ((λ c, key (Z.of_nat (s_i c)) (Z.of_nat (s_j c)))
            <$> take (Z.to_nat (idx + 1)) steps)).
Proof. intros Hi. unfold revealed. apply revealed_take. lia. Qed.

(** X13: outside the step list the [revealed] loop either does not run
    or fails: a negative index gives the empty set, an index at or past
    the length of the list makes it read a field of [undefined], a
    [TypeError]. *)
Theorem revealed_outside steps (idx : Z) :
  ¬ (0 ≤ idx < Z.of_nat (length steps))%Z →
  revealed steps idx = if decide (idx < 0)%Z then inr ∅ else inl TypeError.
Proof.
  intros Hout. case_decide as Hneg.
  - unfold revealed. by replace (Z.to_nat (idx + 1)) with 0 by lia.
  - unfold revealed.
    replace (Z.to_nat (idx + 1))
      with (length steps + S (Z.to_nat idx - length steps)) by lia.
    rewrite for_loop_app, revealed_take by done. simpl.
    by rewrite lookup_ge_None_2 by lia.
Qed.

Lemma revealed_outside_witness :
  ¬ (0 ≤ 3 < Z.of_nat (length [mkCell 0 0 None None 0 [] (mkCandidate OpInit None 0)]))%Z ∧
  revealed [mkCell 0 0 None None 0 [] (mkCandidate OpInit None 0)] 3 = inl TypeError.
Proof.
  assert (H : ¬ (0 ≤ 3 < Z.of_nat (length
                [mkCell 0 0 None None 0 [] (mkCandidate OpInit None 0)]))%Z)
    by (simpl; lia).
  split; [exact H|].
  exact (revealed_outside
           [mkCell 0 0 None None 0 [] (mkCandidate OpInit None 0)] 3 H).
Defined.

Lemma cell_index_bound m n i j :
  i ≤ m → j ≤ n → cell_index m n i j < (m + 1) + n + m * n.
Proof.
  intros Hi Hj. rewrite <-length_cell_order.
  eapply lookup_lt_Some. by apply cell_order_index.
Qed.

(** The cells revealed at a step of the builder's list are the cells
    whose own step comes no later. *)
Lemma revealed_builder a b r (k : nat) :
  Inv a b (λ i j, i ≤ length a ∧ j ≤ length b)
    (cell_order (length a) (length b)) r →
  k < length (steps r) →
  ∃ S, revealed (steps r) (Z.of_nat k) = inr S ∧
       ∀ i j : nat,
         key (Z.of_nat i) (Z.of_nat j) ∈ S ↔
         i ≤ length a ∧ j ≤ length b ∧
         cell_index (length a) (length b) i j ≤ k.
Proof.
  intros HI Hk. eexists. split; [apply revealed_in_range; lia|].
  intros i j. rewrite elem_of_list_to_set, list_elem_of_fmap.
  replace (Z.to_nat (Z.of_nat k + 1)) with (S k) by lia.
  rewrite (inv_steps _ _ _ _ _ HI). split.
  - intros (s & Hkey & (idx & Hs & Hidx)%elem_of_take).
    apply list_lookup_fmap_Some in Hs as ([i' j'] & -> & Hc).
    cbv beta in Hkey. rewrite cell_step_i, cell_step_j in Hkey.
    apply key_inj in Hkey as [->%(inj Z.of_nat) ->%(inj Z.of_nat)].
    apply cell_order_lookup_inv in Hc as (? & ? & ->). repeat split; [done..|lia].
  - intros (Hi & Hj & Hidx).
    exists (cell_step a b (i, j)). cbv beta. rewrite cell_step_i, cell_step_j.
    split; [done|]. apply elem_of_take.
    exists (cell_index (length a) (length b) i j). split; [|lia].
    by rewrite list_lookup_fmap, cell_order_index.
Qed.

Lemma builder_steps_length a b r :
  Inv a b (λ i j, i ≤ length a ∧ j ≤ length b)
    (cell_order (length a) (length b)) r →
  length (steps r) = (length a + 1) + length b + length a * length b.
Proof.
  intros HI. by rewrite (inv_steps _ _ _ _ _ HI), length_fmap, length_cell_order.
Qed.

(** X14: while the step index is a position of the step list, the cell
    [(i, j)] of the table is revealed exactly when its own step sits at
    a position no later than the index; [cell_index] is that position. *)
Theorem revealed_iff_filled a b (k i j : nat) :
  k < (length a + 1) + length b + length a * length b →
  i ≤ length a → j ≤ length b →
  ∃ r S s,
    computeEditDistanceSteps a b = inr r ∧
    revealed (steps r) (Z.of_nat k) = inr S ∧
    steps r !! cell_index (length a) (length b) i j = Some s ∧
    s_i s = i ∧ s_j s = j ∧
    (key (Z.of_nat i) (Z.of_nat j) ∈ S ↔
     cell_index (length a) (length b) i j ≤ k).
Proof.
  intros Hk Hi Hj.
  destruct (computeEditDistanceSteps_inv a b) as (r & Hr & HI).
  destruct (revealed_builder a b r k HI) as (S & HS & Hiff).
  { by rewrite (builder_steps_length a b r HI). }
  exists r, S, (cell_step a b (i, j)). do 2 (split; [done|]). split.
  { by rewrite (inv_steps _ _ _ _ _ HI), list_lookup_fmap, cell_order_index. }
  rewrite cell_step_i, cell_step_j. do 2 (split; [done|]).
  rewrite Hiff. tauto.
Qed.

Lemma revealed_iff_filled_witness :
  3 < (length (js "ab") + 1) + length (js "b") + length (js "ab") * length (js "b") ∧
  2 ≤ length (js "ab") ∧ 1 ≤ length (js "b") ∧
  ∃ r S s,
    computeEditDistanceSteps (js "ab") (js "b") = inr r ∧
    revealed (steps r) 3 = inr S ∧
    steps r !! 5 = Some s ∧ s_i s = 2 ∧ s_j s = 1 ∧
    (key 2 1 ∈ S ↔ 5 ≤ 3).
Proof.
  assert (H0 : 3 < (length (js "ab") + 1) + length (js "b")
                   + length (js "ab") * length (js "b")) by (simpl; lia).
  assert (H1 : 2 ≤ length (js "ab")) by (simpl; lia).
  assert (H2 : 1 ≤ length (js "b")) by (simpl; lia).
  split; [exact H0|]. split; [exact H1|]. split; [exact H2|].
  exact (revealed_iff_filled (js "ab") (js "b") 3 2 1 H0 H1 H2).
Defined.

(** ** Playback *)

Lemma step_forward_iter hi s k :
  (0 ≤ s ≤ hi)%Z →
  Nat.iter k (step_forward hi) s = (Z.min (s + Z.of_nat k) hi)%Z.
Proof.
  intros Hs. induction k as [|k IH]; simpl.
  - lia.
  - rewrite IH. unfold step_forward, clamp. lia.
Qed.

(** X15: whatever integer the step index holds, clamping it to
    [0 .. maxStep] as the component does yields the position of a step
    of the builder's list, and leaves an index already in that range
    unchanged; the list is never empty. *)
Theorem clamped_index_is_a_step a b (s : Z) :
  ∃ r cur,
    computeEditDistanceSteps a b = inr r ∧
    (0 ≤ maxStep (steps r))%Z ∧
    current_step (steps r) (clamp s 0 (maxStep (steps r))) = Some cur ∧
    ((0 ≤ s ≤ maxStep (steps r))%Z → clamp s 0 (maxStep (steps r)) = s).
Proof.
  destruct (computeEditDistanceSteps_inv a b) as (r & Hr & HI).
  pose proof (builder_steps_length a b r HI) as Hlen.
  assert (0 ≤ maxStep (steps r))%Z as Hmax by (unfold maxStep; lia).
  destruct (lookup_lt_is_Some_2 (steps r)
              (Z.to_nat (clamp s 0 (maxStep (steps r))))) as [cur Hcur].
  { unfold clamp, maxStep in *. lia. }
  exists r, cur. split; [done|]. split; [done|]. split.
  - unfold current_step. rewrite decide_True; [done|]. unfold clamp. lia.
  - unfold clamp. lia.
Qed.

(** X16: pressing Step [k] times from step 0 leads to step
    [min(k, maxStep)], where [maxStep = lenA + lenB + lenA*lenB]; the
    index never leaves [0 .. maxStep] and, once at [maxStep], stays
    there. *)
Theorem stepping_stops_at_last_step a b (k : nat) :
  ∃ r,
    computeEditDistanceSteps a b = inr r ∧
    maxStep (steps r) =
      Z.of_nat (length a + length b + length a * length b) ∧
    Nat.iter k (step_forward (maxStep (steps r))) 0%Z =
      (Z.min (Z.of_nat k) (maxStep (steps r)))%Z ∧
    step_forward (maxStep (steps r)) (maxStep (steps r)) = maxStep (steps r) ∧
    ∀ s, (0 ≤ s ≤ maxStep (steps r))%Z →
         (0 ≤ step_forward (maxStep (steps r)) s ≤ maxStep (steps r))%Z.
Proof.
  destruct (computeEditDistanceSteps_inv a b) as (r & Hr & HI).
  pose proof (builder_steps_length a b r HI) as Hlen.
  assert (maxStep (steps r) =
          Z.of_nat (length a + length b + length a * length b)) as Hmax.
  { unfold maxStep. rewrite Hlen. lia. }
  exists r. split; [done|]. split; [done|]. split; [|split].
  - rewrite step_forward_iter by lia. f_equal.
  - unfold step_forward, clamp. lia.
  - intros s Hs. unfold step_forward, clamp. lia.
Qed.

(** X17: at the last step the inspector shows the cell
    [(lenA, lenB)], whose cost is the distance, and every cell of the
    table is revealed. *)
Theorem last_step_shows_everything a b (i j : nat) :
  i ≤ length a → j ≤ length b →
  ∃ r cur S,
    computeEditDistanceSteps a b = inr r ∧
    current_step (steps r) (maxStep (steps r)) = Some cur ∧
    s_i cur = length a ∧ s_j cur = length b ∧ cost cur = lev a b ∧
    revealed (steps r) (maxStep (steps r)) = inr S ∧
    key (Z.of_nat i) (Z.of_nat j) ∈ S.
Proof.
  intros Hi Hj.
  destruct (computeEditDistanceSteps_inv a b) as (r & Hr & HI).
  pose proof (builder_steps_length a b r HI) as Hlen.
  set (k := length a + length b + length a * length b).
  assert (maxStep (steps r) = Z.of_nat k) as Hmax.
  { unfold maxStep, k. rewrite Hlen. lia. }
  destruct (revealed_builder a b r k HI) as (S & HS & Hiff);
    [unfold k; lia|].
  exists r, (cell_step a b (length a, length b)), S. split; [done|].
  rewrite Hmax. split.
  { unfold current_step. rewrite decide_True by lia. rewrite Nat2Z.id.
    rewrite (inv_steps _ _ _ _ _ HI), list_lookup_fmap.
    pose proof (last_cell_order (length a) (length b)) as Hlast.
    rewrite last_lookup, length_cell_order in Hlast.
    replace (pred (length a + 1 + length b + length a * length b))
      with k in Hlast by (unfold k; lia).
    by rewrite Hlast. }
  rewrite cell_step_i, cell_step_j. do 2 (split; [done|]). split.
  { destruct (length a) as [|m] eqn:Hm, (length b) as [|n] eqn:Hn; simpl.
    - apply nil_length_inv in Hm as ->. by apply nil_length_inv in Hn as ->.
    - rewrite <-Hn, <-(T_row0 a b (length b)) by done.
      rewrite <-(T_full a b), Hm. done.
    - rewrite <-Hm, <-(T_col0 a b (length a)) by done.
      rewrite <-(T_full a b), Hn. done.
    - rewrite <-Hm, <-Hn, interior_chosen_value by lia. apply T_full. }
  split; [done|]. apply Hiff. do 2 (split; [done|]).
  pose proof (cell_index_bound (length a) (length b) i j Hi Hj). unfold k. lia.
Qed.

Lemma last_step_shows_everything_witness :
  1 ≤ length (js "ab") ∧ 1 ≤ length (js "b") ∧
  ∃ r cur S,
    computeEditDistanceSteps (js "ab") (js "b") = inr r ∧
    current_step (steps r) (maxStep (steps r)) = Some cur ∧
    s_i cur = 2 ∧ s_j cur = 1 ∧ cost cur = lev (js "ab") (js "b") ∧
    revealed (steps r) (maxStep (steps r)) = inr S ∧
    key 1 1 ∈ S.
Proof.
  assert (H1 : 1 ≤ length (js "ab")) by (simpl; lia).
  assert (H2 : 1 ≤ length (js "b")) by (simpl; lia).
  split; [exact H1|]. split; [exact H2|].
  exact (last_step_shows_everything (js "ab") (js "b") 1 1 H1 H2).
Defined.

(** ** Candidates come from revealed cells *)

Lemma cell_index_up m n i j :
  1 ≤ i ≤ m → 1 ≤ j ≤ n →
  cell_index m n (i - 1) j < cell_index m n i j ∧
  cell_index m n i (j - 1) < cell_index m n i j ∧
  cell_index m n (i - 1) (j - 1) < cell_index m n i j.
Proof.
  intros Hi Hj. destruct i as [|[|i]]; [lia|..]; destruct j as [|[|j]];
    try lia; simpl; lia.
Qed.

(** X18: when a step is shown, the cell each of its candidates comes
    from has already been revealed by the step before: the [from] of a
    candidate of the step at position [k] is in the revealed set of
    position [k - 1]. *)
Theorem candidate_sources_revealed a b :
  ∃ r, computeEditDistanceSteps a b = inr r ∧
       ∀ (k : nat) s c fi fj,
         steps r !! k = Some s → c ∈ candidates s →
         c_from c = Some (fi, fj) →
         ∃ S, revealed (steps r) (Z.of_nat k - 1) = inr S ∧
              key (Z.of_nat fi) (Z.of_nat fj) ∈ S.
Proof.
  destruct (computeEditDistanceSteps_inv a b) as (r & Hr & HI).
  exists r. split; [done|]. intros k s c fi fj Hs Hc Hfrom.
  rewrite (inv_steps _ _ _ _ _ HI) in Hs.
  apply list_lookup_fmap_Some in Hs as ([i j] & -> & Hcell).
  apply cell_order_lookup_inv in Hcell as (Hi & Hj & ->).
  set (m := length a) in *. set (n := length b) in *.
  assert (fi ≤ m ∧ fj ≤ n ∧ cell_index m n fi fj < cell_index m n i j)
    as (Hfi & Hfj & Hlt).
  { destruct i as [|i], j as [|j]; simpl in Hc.
    - apply list_elem_of_singleton in Hc as ->. done.
    - apply list_elem_of_singleton in Hc as ->. injection Hfrom as <- <-.
      destruct j; simpl; lia.
    - apply list_elem_of_singleton in Hc as ->. injection Hfrom as <- <-.
      destruct i; simpl; lia.
    - destruct (cell_index_up m n (S i) (S j)) as (H1 & H2 & H3); [lia..|].
      rewrite !elem_of_cons in Hc.
      destruct Hc as [->|[->|[->|Hc]]]; [..|by apply elem_of_nil in Hc];
        injection Hfrom as <- <-; (split; [lia|]); (split; [lia|]); done. }
  destruct (revealed_builder a b r (cell_index m n i j - 1) HI) as (S & HS & Hiff).
  { rewrite (builder_steps_length a b r HI).
    pose proof (cell_index_bound m n i j Hi Hj). unfold m, n in *. lia. }
  exists S. split.
  - rewrite <-HS. f_equal. lia.
  - apply Hiff. fold m n. do 2 (split; [done|]). lia.
Qed.

(** ** The highlighted path *)

Section path_cells.
Variables a b : jsstring.
Variable parent : list (list (option Link)).
Hypothesis parent_links : ∀ i j : nat,
  i ≤ length a → j ≤ length b →
  parent_at parent (Z.of_nat i) (Z.of_nat j) = cell_link a b i j.

Lemma parent_chain_below fuel (i j : nat) c :
  i ≤ length a → j ≤ length b →
  c ∈ parent_chain fuel parent (Z.of_nat i) (Z.of_nat j) →
  ∃ x y : nat, c = (Z.of_nat x, Z.of_nat y) ∧ x ≤ i ∧ y ≤ j ∧
               (x + y = i + j → x = i ∧ y = j).
Proof using parent_links.
  revert i j. induction fuel as [|fuel IH]; intros i j Hi Hj; simpl.
  - intros ->%list_elem_of_singleton. exists i, j. auto.
  - rewrite parent_links by done. rewrite elem_of_cons.
    intros [->|Hc]; [exists i, j; auto|].
    destruct (cell_link a b i j) as [p|] eqn:Hp; [|by apply elem_of_nil in Hc].
    apply cell_link_cases in Hp.
    apply IH in Hc as (x & y & -> & Hx & Hy & _); [|lia..].
    exists x, y. split; [done|]. repeat split; lia.
Qed.

Lemma NoDup_parent_chain fuel (i j : nat) :
  i ≤ length a → j ≤ length b →
  NoDup (parent_chain fuel parent (Z.of_nat i) (Z.of_nat j)).
Proof using parent_links.
  revert i j. induction fuel as [|fuel IH]; intros i j Hi Hj; simpl.
  - apply NoDup_singleton.
  - rewrite parent_links by done.
    destruct (cell_link a b i j) as [p|] eqn:Hp; [|apply NoDup_singleton].
    apply cell_link_cases in Hp. apply NoDup_cons. split; [|apply IH; lia].
    intros (x & y & [= Hx Hy] & ? & ? & _)%parent_chain_below; lia.
Qed.

Lemma chain_ops_length fuel (i j : nat) :
  i ≤ length a → j ≤ length b → i + j ≤ fuel →
  i `max` j ≤ length (chain_ops fuel parent (Z.of_nat i) (Z.of_nat j)) ≤ i + j.
Proof using parent_links.
  revert i j. induction fuel as [|fuel IH]; intros i j Hi Hj Hf; simpl; [lia|].
  rewrite parent_links by done.
  destruct (decide (i + j = 0)) as [H0|Hpos].
  - assert (i = 0 ∧ j = 0) as [-> ->] by lia. simpl. lia.
  - destruct (cell_link_is_Some a b i j) as [p Hp]; [lia|]. rewrite Hp.
    apply cell_link_cases in Hp. simpl.
    specialize (IH (l_i p) (l_j p)). lia.
Qed.
End path_cells.

(** X19: with the backtrace switched off no cell is highlighted; with it
    on, a cell is highlighted exactly when the walk from the final cell
    visits it, the visited cells all lie in the table, and their number
    is between [max(lenA, lenB) + 1] and [lenA + lenB + 1]. *)
Theorem highlighted_cells a b :
  ∃ r path,
    computeEditDistanceSteps a b = inr r ∧
    let fuel := length a + length b + 1 in
    let chain := parent_chain fuel (parent r)
                   (Z.of_nat (length a)) (Z.of_nat (length b)) in
    backtrace_memo fuel false (parent r) a b = Some ∅ ∧
    backtrace_memo fuel true (parent r) a b = Some path ∧
    (∀ i j : Z, key i j ∈ path ↔ (i, j) ∈ chain) ∧
    (∀ i j : Z, (i, j) ∈ chain →
       (0 ≤ i ≤ Z.of_nat (length a))%Z ∧ (0 ≤ j ≤ Z.of_nat (length b))%Z) ∧
    size path = length chain ∧
    length a `max` length b + 1 ≤ size path ≤ length a + length b + 1.
Proof.
  destruct (computeEditDistanceSteps_inv a b) as (r & Hr & HI).
  pose proof (builder_parent_links a b r HI) as Hlinks.
  destruct (backtrace_loop_returns a b (parent r) Hlinks
              (length a + length b + 1)
              {[key (Z.of_nat (length a)) (Z.of_nat (length b))]}
              (length a) (length b)) as [path Hpath]; [lia..|].
  pose proof (buildBacktrace_chain _ _ _ _ _ Hpath) as Hset.
  pose proof (NoDup_parent_chain a b (parent r) Hlinks
                (length a + length b + 1) (length a) (length b)) as Hnd.
  pose proof (chain_ops_length a b (parent r) Hlinks
                (length a + length b + 1) (length a) (length b)) as Hlen.
  exists r, path. split; [done|]. cbv zeta.
  split; [done|]. split; [done|].
  assert (∀ i j : Z,
    key i j ∈ path ↔
    (i, j) ∈ parent_chain (length a + length b + 1) (parent r)
               (Z.of_nat (length a)) (Z.of_nat (length b))) as Hmem.
  { intros i j. rewrite Hset, elem_of_list_to_set, list_elem_of_fmap. split.
    - intros ([i' j'] & Hk & Hin). simpl in Hk.
      by apply key_inj in Hk as [-> ->].
    - intros Hin. by exists (i, j). }
  split; [done|]. split.
  { intros i j Hin.
    apply (parent_chain_below a b (parent r) Hlinks) in Hin
      as (x & y & [= -> ->] & ? & ? & _); lia. }
  assert (size path = length (parent_chain (length a + length b + 1) (parent r)
                                (Z.of_nat (length a)) (Z.of_nat (length b))))
    as Hsize.
  { rewrite Hset, size_list_to_set, length_fmap; [done|].
    apply NoDup_fmap_2_strong; [|apply Hnd; lia].
    intros [x y] [x' y'] _ _ Hk. simpl in Hk.
    by apply key_inj in Hk as [-> ->]. }
  split; [done|]. rewrite Hsize, parent_chain_length. lia.
Qed.

(** ** The distance as a least number of edits *)

(** X20: the distance returned is the cost of some edit script from [a]
    to [b] (insertions, deletions and substitutions at cost 1, kept
    units free), and no edit script from [a] to [b] is cheaper. *)
Theorem distance_is_least_script a b :
  ∃ r d, computeEditDistanceSteps a b = inr r ∧
         get2 (dp r) (length a) (length b) = inr d ∧
         edits a b d ∧ ∀ n, edits a b n → d ≤ n.
Proof.
  destruct (computeEditDistanceSteps_inv a b) as (r & Hr & HI).
  exists r, (lev a b). split; [done|]. split.
  { rewrite (inv_dp _ _ _ _ _ HI) by lia. by rewrite T_full. }
  split; [apply edits_lev|]. intros n. apply lev_le_edits.
Qed.

(** ** The reconstructor on an arbitrary table *)

Lemma parent_chain_targets fuel parent i j c :
  c ∈ tail (parent_chain fuel parent i j) →
  ∃ i' j' p, parent_at parent i' j' = Some p ∧
             c = (Z.of_nat (l_i p), Z.of_nat (l_j p)).
Proof.
  revert i j. induction fuel as [|fuel IH]; intros i j; simpl.
  - by intros ?%elem_of_nil.
  - destruct (parent_at parent i j) as [p|] eqn:Hp; [|by intros ?%elem_of_nil].
    destruct fuel as [|fuel']; simpl.
    + intros ->%list_elem_of_singleton. eauto.
    + rewrite elem_of_cons. intros [->|Hc]; [eauto|].
      apply (IH (Z.of_nat (l_i p)) (Z.of_nat (l_j p))). exact Hc.
Qed.

(** X21: on any parent table, when the reconstructor returns, the set
    holds the key of the start coordinates, and every other key in it is
    the key of the target of some link of the table. *)
Theorem backtrace_keys fuel parent (m n : Z) path :
  buildBacktrace fuel parent m n = Some path →
  key m n ∈ path ∧
  ∀ k, k ∈ path →
       k = key m n ∨
       ∃ i j p, parent_at parent i j = Some p ∧
                k = key (Z.of_nat (l_i p)) (Z.of_nat (l_j p)).
Proof.
  intros Hrun. pose proof Hrun as ->%backtrace_loop_chain. split.
  - apply elem_of_union. left. by apply elem_of_singleton.
  - intros k [Hk%elem_of_singleton|Hk]%elem_of_union; [by left|].
    right. apply elem_of_list_to_set, list_elem_of_fmap in Hk as (c & -> & Hc).
    apply parent_chain_targets in Hc as (i & j & p & Hp & ->). eauto.
Qed.

Lemma backtrace_keys_witness :
  buildBacktrace 2 [[None; Some (mkLink 0 0 OpInsert)]] 0 1 = Some {[ "0,1"; "0,0" ]} ∧
  key 0 1 ∈ ({[ "0,1"; "0,0" ]} : gset string).
Proof.
  assert (H : buildBacktrace 2 [[None; Some (mkLink 0 0 OpInsert)]] 0 1
              = Some {[ "0,1"; "0,0" ]}) by reflexivity.
  split; [exact H|].
  exact (proj1 (backtrace_keys 2 [[None; Some (mkLink 0 0 OpInsert)]] 0 1 _ H)).
Defined.

Lemma backtrace_loop_self_link parent (i j : nat) p fuel path :
  parent_at parent (Z.of_nat i) (Z.of_nat j) = Some p →
  l_i p = i → l_j p = j →
  backtrace_loop fuel parent path (Z.of_nat i) (Z.of_nat j) = None.
Proof.
  intros Hp Hi Hj. revert path.
  induction fuel as [|fuel IH]; intros path; simpl; [done|].
  rewrite Hp, Hi, Hj. apply IH.
Qed.

(** X22: the reconstructor relies on the links leading away from their
    own cell: on a table in which the start cell is linked to itself the
    loop never ends, whatever bound is put on the number of its rounds. *)
Theorem backtrace_self_link_diverges parent (i j : nat) p fuel :
  parent_at parent (Z.of_nat i) (Z.of_nat j) = Some p →
  l_i p = i → l_j p = j →
  buildBacktrace fuel parent (Z.of_nat i) (Z.of_nat j) = None.
Proof. intros Hp Hi Hj. by eapply backtrace_loop_self_link. Qed.

Lemma backtrace_self_link_diverges_witness :
  parent_at [[Some (mkLink 0 0 OpMatch)]] 0 0 = Some (mkLink 0 0 OpMatch) ∧
  buildBacktrace 7 [[Some (mkLink 0 0 OpMatch)]] 0 0 = None.
Proof.
  assert (H : parent_at [[Some (mkLink 0 0 OpMatch)]] (Z.of_nat 0) (Z.of_nat 0)
              = Some (mkLink 0 0 OpMatch)) by reflexivity.
  split; [exact H|].
  exact (backtrace_self_link_diverges [[Some (mkLink 0 0 OpMatch)]] 0 0
           (mkLink 0 0 OpMatch) 7 H eq_refl eq_refl).
Defined.
